(** * ScalyrBackend: the in-memory user directory of the user-management exercise

    A shallow embedding of [src/api/ScalyrBackend.js] and the properties of
    its operations ([getUsers], [inviteUsers], [resendInvite],
    [revokeAccess], [markAsActive]).

    The promise returned by every public method is modelled by the value it
    settles with ([resolve] or [reject]); the 100 ms timer of
    [_returnPromise] only delays delivery and is left out.  A method is a
    function from the backend before the call to the settled promise and the
    backend after the call. *)

From Stdlib Require Import String Ascii List ZArith Lia Bool Sorted.
Import ListNotations.
Local Open Scope string_scope.

(** ** Data model *)

(** [const AccessLevel = {...}] and [const UserState = {...}]: string constants. *)
Definition AccessLevel_READ_ONLY : string := "read-only".
Definition AccessLevel_FULL : string := "full".
Definition AccessLevel_LIMITED : string := "limited".
Definition UserState_ACTIVE : string := "active".
Definition UserState_INVITED : string := "invited".

(** [Object.values(AccessLevel)], in property order. *)
Definition AccessLevel : list string :=
  [AccessLevel_READ_ONLY; AccessLevel_FULL; AccessLevel_LIMITED].

(** The three fields of a user record. *)
Record UserRecord : Type := mkUserRecord {
  email : string;
  accessLevel : string;
  state : string
}.

(** A user object living in [_userList]: JavaScript compares objects by
    identity ([indexOf] in [revokeAccess]) and mutates them in place
    ([markAsActive]), so every object carries its identity [ident], the
    serial number of its allocation, next to the current values of its
    fields. *)
Record UserObject : Type := mkUserObject {
  ident : nat;
  fields : UserRecord
}.

(** The backend instance: [this._userList], and the number of user objects
    allocated so far (the identity the next new object receives). *)
Record Backend : Type := mkBackend {
  _userList : list UserObject;
  allocated : nat
}.

(** What an element of an array handed to the caller is: a reference to an
    object of [_userList], through which the caller reads and writes that
    very object, or an object created for the caller by an object literal,
    given by the values of its fields. *)
Inductive Handle : Type :=
| reference (o : UserObject)
| created (r : UserRecord).

(** The object a promise settles with: [status], and [users] or [message]
    when present. *)
Record Result : Type := mkResult {
  status : string;
  users : option (list Handle);
  message : option string
}.

Inductive Promise : Type :=
| resolve (value : Result)
| reject (reason : Result).

(** ** Array and string primitives of the host language *)

(** [Array.prototype.indexOf]: first index whose element is strictly equal
    to [x], or -1. *)
Fixpoint indexOf_from {A : Type} (eqb : A -> A -> bool) (l : list A) (x : A) (i : Z) : Z :=
  match l with
  | [] => (-1)%Z
  | y :: l' => if eqb y x then i else indexOf_from eqb l' x (i + 1)%Z
  end.

Definition indexOf {A : Type} (eqb : A -> A -> bool) (l : list A) (x : A) : Z :=
  indexOf_from eqb l x 0%Z.

(** [Array.prototype.splice(start, 1)]: a negative [start] counts from the
    end, a [start] beyond the end deletes nothing. *)
Definition splice1 {A : Type} (l : list A) (start : Z) : list A :=
  let len := Z.of_nat (length l) in
  let actualStart :=
    if (start <? 0)%Z then Z.max (len + start) 0 else Z.min start len in
  let n := Z.to_nat actualStart in
  firstn n l ++ skipn (S n) l.

(** [===] on two object references. *)
Definition same_object (a b : UserObject) : bool := Nat.eqb (ident a) (ident b).

(** The double quote character used in the error messages. *)
Definition dquote : string := String (ascii_of_nat 34) EmptyString.

(** ** Private helpers *)

Definition _createUserRecord (emailAddress accessLevel userState : string) : UserRecord :=
  {| email := emailAddress; accessLevel := accessLevel; state := userState |}.

(** [_copyUserRecord(source)] returns an object literal: a new object,
    whose three fields are read from the object [source]. *)
Definition _copyUserRecord (source : UserObject) : Handle :=
  created {| email := email (fields source);
             accessLevel := accessLevel (fields source);
             state := state (fields source) |}.

(** [this._userList.push(r)] for a freshly created record [r]: the new
    object gets the next identity. *)
Definition push (r : UserRecord) (b : Backend) : Backend :=
  {| _userList := _userList b ++ [ {| ident := allocated b; fields := r |} ];
     allocated := S (allocated b) |}.

(** The loop of [_findUser] over a list of user objects; [None] is [null]. *)
Fixpoint findUser (userList : list UserObject) (emailAddress : string) : option UserObject :=
  match userList with
  | [] => None
  | o :: rest =>
      if String.eqb (email (fields o)) emailAddress then Some o
      else findUser rest emailAddress
  end.

Definition _findUser (b : Backend) (emailAddress : string) : option UserObject :=
  findUser (_userList b) emailAddress.

Definition _hasValue (inputObject : list string) (value : string) : bool :=
  (indexOf String.eqb inputObject value >=? 0)%Z.

Definition _returnPromise (success : bool) (value : Result) : Promise :=
  if success then resolve value else reject value.

Definition _returnResult (result : Result) : Promise :=
  _returnPromise true result.

Definition _returnError (errorCode msg : string) : Promise :=
  _returnPromise false {| status := errorCode; users := None; message := Some msg |}.

Definition _returnSuccess : Promise :=
  _returnResult {| status := "success"; users := None; message := None |}.

(** [targetUser.state = newState]: the assignment is seen through every
    reference to the object [target]. *)
Definition set_state (target : UserObject) (newState : string) (userList : list UserObject)
  : list UserObject :=
  map (fun o =>
         if same_object o target
         then {| ident := ident o;
                 fields := {| email := email (fields o);
                              accessLevel := accessLevel (fields o);
                              state := newState |} |}
         else o) userList.

(** ** The constructor and the public methods *)

Definition ScalyrBackend : Backend :=
  {| _userList :=
       [ {| ident := 0;
            fields := _createUserRecord "czerwin@scalyr.com" AccessLevel_FULL UserState_ACTIVE |};
         {| ident := 1;
            fields := _createUserRecord "asma@scalyr.com" AccessLevel_FULL UserState_ACTIVE |};
         {| ident := 2;
            fields := _createUserRecord "jeff@scalyr.com" AccessLevel_FULL UserState_INVITED |};
         {| ident := 3;
            fields := _createUserRecord "claudia@scalyr.com" AccessLevel_READ_ONLY UserState_ACTIVE |};
         {| ident := 4;
            fields := _createUserRecord "steve@scalyr.com" AccessLevel_LIMITED UserState_INVITED |} ];
     allocated := 5 |}.

Definition getUsers (b : Backend) : Promise * Backend :=
  let result := map _copyUserRecord (_userList b) in
  (_returnResult {| status := "success"; users := Some result; message := None |}, b).

(** First loop of [inviteUsers]: the first [users[i]] that [_findUser] finds. *)
Fixpoint inviteUsers_existing (b : Backend) (users : list string) : option string :=
  match users with
  | [] => None
  | u :: rest =>
      match _findUser b u with
      | Some _ => Some u
      | None => inviteUsers_existing b rest
      end
  end.

(** Second loop of [inviteUsers]: one [push] per element, in order. *)
Fixpoint inviteUsers_push (users : list string) (accessLevel : string) (b : Backend) : Backend :=
  match users with
  | [] => b
  | u :: rest =>
      inviteUsers_push rest accessLevel
        (push (_createUserRecord u accessLevel UserState_INVITED) b)
  end.

Definition inviteUsers (users : list string) (accessLevel : string) (b : Backend)
  : Promise * Backend :=
  if negb (_hasValue AccessLevel accessLevel) then
    (_returnError "invalidAccess"
       ("The specified accessLevel " ++ dquote ++ accessLevel ++ dquote ++ " is not valid."), b)
  else
    match inviteUsers_existing b users with
    | Some u =>
        (_returnError "userExists"
           ("The specified user " ++ dquote ++ u ++ dquote ++ " already exists."), b)
    | None => (_returnSuccess, inviteUsers_push users accessLevel b)
    end.

Definition userNotExists (user : string) : Promise :=
  _returnError "userNotExists"
    ("The specified user " ++ dquote ++ user ++ dquote ++ " does not exists.").

Definition resendInvite (user : string) (b : Backend) : Promise * Backend :=
  match _findUser b user with
  | None => (userNotExists user, b)
  | Some _ => (_returnSuccess, b)
  end.

Definition revokeAccess (user : string) (b : Backend) : Promise * Backend :=
  match _findUser b user with
  | None => (userNotExists user, b)
  | Some targetUser =>
      (_returnSuccess,
       {| _userList := splice1 (_userList b) (indexOf same_object (_userList b) targetUser);
          allocated := allocated b |})
  end.

Definition markAsActive (user : string) (b : Backend) : Promise * Backend :=
  match _findUser b user with
  | None => (userNotExists user, b)
  | Some targetUser =>
      (_returnSuccess,
       {| _userList := set_state targetUser UserState_ACTIVE (_userList b);
          allocated := allocated b |})
  end.

(** ** Sequences of calls *)

Inductive Call : Type :=
| CallGetUsers
| CallInviteUsers (users : list string) (accessLevel : string)
| CallResendInvite (user : string)
| CallRevokeAccess (user : string)
| CallMarkAsActive (user : string).

Definition call (c : Call) (b : Backend) : Promise * Backend :=
  match c with
  | CallGetUsers => getUsers b
  | CallInviteUsers us al => inviteUsers us al b
  | CallResendInvite u => resendInvite u b
  | CallRevokeAccess u => revokeAccess u b
  | CallMarkAsActive u => markAsActive u b
  end.

(** The backend after a sequence of calls, results dropped. *)
Fixpoint run (cs : list Call) (b : Backend) : Backend :=
  match cs with
  | [] => b
  | c :: rest => run rest (snd (call c b))
  end.

(** ** Vocabulary of the properties *)

Local Open Scope list_scope.

(** The emails present in the directory, in list order. *)
Definition emails (b : Backend) : list string :=
  map (fun o => email (fields o)) (_userList b).

(** The records of the directory by value, in list order. *)
Definition records (b : Backend) : list UserRecord :=
  map fields (_userList b).

Definition idents (b : Backend) : list nat :=
  map ident (_userList b).

(** The objects of [_userList] are pairwise distinct objects. *)
Definition distinct_objects (b : Backend) : Prop := NoDup (idents b).

(** The backend value denotes a JavaScript heap: one object has one value
    per field, so two entries of [_userList] with the same identity are the
    same object with the same fields. *)
Definition coherent (b : Backend) : Prop :=
  forall o o', In o (_userList b) -> In o' (_userList b) -> ident o' = ident o -> o' = o.

(** Representation invariant: distinct objects, allocated in list order,
    all before the next identity. *)
Definition well_formed (b : Backend) : Prop :=
  StronglySorted lt (idents b) /\ Forall (fun i => i < allocated b) (idents b).

Definition success : Result :=
  {| status := "success"; users := None; message := None |}.

Definition invited (accessLevel emailAddress : string) : UserRecord :=
  {| email := emailAddress; accessLevel := accessLevel; state := "invited" |}.

(** The objects the second loop of [inviteUsers] creates when the next
    identity is [n]: one per email, in input order, state [invited]. *)
Fixpoint fresh_objects (n : nat) (accessLevel : string) (us : list string) : list UserObject :=
  match us with
  | [] => []
  | u :: rest =>
      {| ident := n; fields := invited accessLevel u |} :: fresh_objects (S n) accessLevel rest
  end.

(** The directory states the program can be in: the seed, then any calls. *)
Definition reachable (b : Backend) : Prop :=
  exists cs, b = run cs ScalyrBackend.

(** What [getUsers] resolves to when the directory holds [rs]: an array of
    objects created for the caller, with the values [rs]. *)
Definition listing (rs : list UserRecord) : Promise :=
  resolve {| status := "success"; users := Some (map created rs); message := None |}.

(** The elements of the array a settled promise hands to the caller. *)
Definition handed_out (p : Promise) : list Handle :=
  match p with
  | resolve {| users := Some hs |} => hs
  | _ => []
  end.

(** The directory after the caller assigns [h.state = newState] to an
    element [h] it was handed: the write reaches the directory exactly when
    [h] is one of its objects. *)
Definition write_state (h : Handle) (newState : string) (userList : list UserObject)
  : list UserObject :=
  match h with
  | reference o => set_state o newState userList
  | created _ => userList
  end.

(** What a failed call rejects with. *)
Definition failure (errorCode msg : string) : Promise :=
  reject {| status := errorCode; users := None; message := Some msg |}.

(** The object [o] after [o.state = UserState.ACTIVE]. *)
Definition activated (o : UserObject) : UserObject :=
  {| ident := ident o;
     fields := {| email := email (fields o);
                  accessLevel := accessLevel (fields o);
                  state := UserState_ACTIVE |} |}.

(** No [inviteUsers] call of the sequence names an email twice in its batch. *)
Definition batches_without_repeats (cs : list Call) : Prop :=
  Forall (fun c => forall us al, c = CallInviteUsers us al -> NoDup us) cs.

(** A record as the header comment of the file describes it: an access
    level among the three valid ones, a state among the two valid ones. *)
Definition valid_record (r : UserRecord) : Prop :=
  In (accessLevel r) AccessLevel /\
  (state r = UserState_ACTIVE \/ state r = UserState_INVITED).

(** The error codes the methods reject with. *)
Definition error_codes : list string :=
  ["invalidAccess"; "userExists"; "userNotExists"].

(** The list without its first object with email [e]. *)
Fixpoint remove_first (e : string) (l : list UserObject) : list UserObject :=
  match l with
  | [] => []
  | o :: rest =>
      if String.eqb (email (fields o)) e then rest else o :: remove_first e rest
  end.

(** The list with its first object with email [e] made active. *)
Fixpoint activate_first (e : string) (l : list UserObject) : list UserObject :=
  match l with
  | [] => []
  | o :: rest =>
      if String.eqb (email (fields o)) e then activated o :: rest
      else o :: activate_first e rest
  end.

(** ** Concrete runs on the seed directory *)

Example seed_records :
  records ScalyrBackend =
  [ mkUserRecord "czerwin@scalyr.com" "full" "active";
    mkUserRecord "asma@scalyr.com" "full" "active";
    mkUserRecord "jeff@scalyr.com" "full" "invited";
    mkUserRecord "claudia@scalyr.com" "read-only" "active";
    mkUserRecord "steve@scalyr.com" "limited" "invited" ].
Proof. reflexivity. Qed.

Example seed_invite_new :
  let (p, b) := inviteUsers ["new@x.com"] "read-only" ScalyrBackend in
  p = resolve success /\
  length (records b) = 6 /\
  In (mkUserRecord "new@x.com" "read-only" "invited") (records b).
Proof. vm_compute. intuition. Qed.

Example seed_invite_existing :
  let (p, b) := inviteUsers ["jeff@scalyr.com"] "full" ScalyrBackend in
  (exists m, p = reject (mkResult "userExists" None (Some m))) /\
  b = ScalyrBackend.
Proof. vm_compute. split; [eexists; reflexivity | reflexivity]. Qed.

Example seed_revoke_middle :
  emails (snd (revokeAccess "jeff@scalyr.com" ScalyrBackend)) =
  ["czerwin@scalyr.com"; "asma@scalyr.com"; "claudia@scalyr.com"; "steve@scalyr.com"].
Proof. reflexivity. Qed.

Example seed_revoke_one_of_two :
  emails (run [CallInviteUsers ["dup@x.com"; "dup@x.com"] "full";
               CallRevokeAccess "dup@x.com"] ScalyrBackend) =
  ["czerwin@scalyr.com"; "asma@scalyr.com"; "jeff@scalyr.com";
   "claudia@scalyr.com"; "steve@scalyr.com"; "dup@x.com"].
Proof. reflexivity. Qed.

Example seed_markAsActive :
  records (snd (markAsActive "jeff@scalyr.com" ScalyrBackend)) =
  [ mkUserRecord "czerwin@scalyr.com" "full" "active";
    mkUserRecord "asma@scalyr.com" "full" "active";
    mkUserRecord "jeff@scalyr.com" "full" "active";
    mkUserRecord "claudia@scalyr.com" "read-only" "active";
    mkUserRecord "steve@scalyr.com" "limited" "invited" ].
Proof. reflexivity. Qed.

Example splice1_negative : splice1 [1; 2; 3] (-1) = [1; 2].
Proof. reflexivity. Qed.

Example splice1_beyond : splice1 [1; 2; 3] 7 = [1; 2; 3].
Proof. reflexivity. Qed.

(** ** The helpers meet their documentation *)

(** [indexOf] answers a non-negative index exactly when some element is
    strictly equal to the value searched. *)
Lemma indexOf_from_found {A : Type} (eqb : A -> A -> bool) (l : list A) (x : A) (i : Z) :
  (0 <= i)%Z ->
  (indexOf_from eqb l x i >=? 0)%Z = existsb (fun y => eqb y x) l.
Proof.
  revert i. induction l as [ | y l IH]; intros i Hi; cbn [indexOf_from existsb].
  - reflexivity.
  - destruct (eqb y x); cbn [orb].
    + apply Z.geb_le. exact Hi.
    + apply IH. lia.
Qed.

(** [_hasValue(AccessLevel, v)] holds exactly for the three access levels. *)
Lemma _hasValue_AccessLevel (v : string) :
  _hasValue AccessLevel v = true <-> In v AccessLevel.
Proof.
  unfold _hasValue, indexOf. rewrite indexOf_from_found by lia.
  rewrite existsb_exists. split.
  - intros (y & Hy & E). apply String.eqb_eq in E. subst y. exact Hy.
  - intros H. exists v. split; [exact H | apply String.eqb_refl].
Qed.

Lemma _hasValue_invalid (v : string) :
  ~ In v AccessLevel -> _hasValue AccessLevel v = false.
Proof.
  intros H. destruct (_hasValue AccessLevel v) eqn:E; [ | reflexivity].
  apply _hasValue_AccessLevel in E. contradiction.
Qed.

(** [_findUser] returns [null] exactly when no record has the email. *)
Lemma findUser_None (l : list UserObject) (e : string) :
  findUser l e = None <-> ~ In e (map (fun o => email (fields o)) l).
Proof.
  induction l as [ | o l IH]; simpl.
  - split; [intros _ [] | reflexivity].
  - destruct (String.eqb_spec (email (fields o)) e) as [E | N].
    + split; [discriminate | intros H; exfalso; apply H; left; exact E].
    + rewrite IH. split; [intros H [H1 | H1]; [exact (N H1) | exact (H H1)] | ].
      intros H H1. apply H. right. exact H1.
Qed.

(** Otherwise it returns the first object with that email. *)
Lemma findUser_Some (l : list UserObject) (e : string) (o : UserObject) :
  findUser l e = Some o ->
  exists pre post,
    l = pre ++ o :: post /\ email (fields o) = e /\
    ~ In e (map (fun x => email (fields x)) pre).
Proof.
  induction l as [ | x l IH]; simpl; [discriminate | ].
  destruct (String.eqb_spec (email (fields x)) e) as [E | N].
  - intros H; injection H as <-. exists [], l. simpl. auto.
  - intros H. destruct (IH H) as (pre & post & -> & He & Hpre).
    exists (x :: pre), post. simpl. repeat split; auto.
    intros [H1 | H1]; [exact (N H1) | exact (Hpre H1)].
Qed.

Lemma findUser_present (l : list UserObject) (e : string) :
  In e (map (fun o => email (fields o)) l) -> exists o, findUser l e = Some o.
Proof.
  intros H. destruct (findUser l e) as [o | ] eqn:E; [eauto | ].
  apply findUser_None in E. contradiction.
Qed.

(** The first loop of [inviteUsers] finds nothing exactly when every email
    of the batch is absent. *)
Lemma inviteUsers_existing_None (b : Backend) (us : list string) :
  inviteUsers_existing b us = None <-> (forall u, In u us -> ~ In u (emails b)).
Proof.
  induction us as [ | u us IH]; simpl.
  - split; [intros _ u [] | reflexivity].
  - unfold _findUser. destruct (findUser (_userList b) u) as [o | ] eqn:E.
    + split; [discriminate | ]. intros H. exfalso.
      assert (findUser (_userList b) u = None) as E'
        by (apply findUser_None; apply H; left; reflexivity).
      congruence.
    + rewrite IH. apply findUser_None in E.
      split; [intros H v [<- | Hv]; auto | intros H v Hv; apply H; right; exact Hv].
Qed.

Lemma inviteUsers_existing_Some (b : Backend) (us : list string) (u : string) :
  inviteUsers_existing b us = Some u -> In u us /\ In u (emails b).
Proof.
  induction us as [ | v us IH]; simpl; [discriminate | ].
  unfold _findUser. destruct (findUser (_userList b) v) as [o | ] eqn:E.
  - intros H; injection H as <-. split; [left; reflexivity | ].
    destruct (in_dec string_dec v (emails b)) as [Hin | Hout]; [exact Hin | ].
    apply findUser_None in Hout. unfold emails in *. congruence.
  - intros H. destruct (IH H). split; [right | ]; assumption.
Qed.

Lemma inviteUsers_existing_present (b : Backend) (us : list string) :
  (exists u, In u us /\ In u (emails b)) ->
  exists v, inviteUsers_existing b us = Some v.
Proof.
  intros (u & Hu & Hb).
  destruct (inviteUsers_existing b us) as [v | ] eqn:E; [eauto | ].
  exfalso. exact (proj1 (inviteUsers_existing_None b us) E u Hu Hb).
Qed.

(** ** The second loop of [inviteUsers] *)

Lemma fresh_objects_fields (n : nat) (al : string) (us : list string) :
  map fields (fresh_objects n al us) = map (invited al) us.
Proof.
  revert n. induction us as [ | u us IH]; intros n; simpl; [reflexivity | ].
  now rewrite IH.
Qed.

Lemma fresh_objects_idents (n : nat) (al : string) (us : list string) :
  map ident (fresh_objects n al us) = seq n (length us).
Proof.
  revert n. induction us as [ | u us IH]; intros n; simpl; [reflexivity | ].
  now rewrite IH.
Qed.

Lemma inviteUsers_push_spec (us : list string) (al : string) (b : Backend) :
  inviteUsers_push us al b =
  {| _userList := _userList b ++ fresh_objects (allocated b) al us;
     allocated := allocated b + length us |}.
Proof.
  revert b. induction us as [ | u us IH]; intros b; simpl.
  - rewrite app_nil_r, Nat.add_0_r. destruct b; reflexivity.
  - rewrite IH. unfold push; simpl. rewrite <- app_assoc. simpl.
    f_equal. lia.
Qed.

(** ** [indexOf] and [splice] in [revokeAccess] *)

Lemma indexOf_from_first (pre post : list UserObject) (o : UserObject) (i : Z) :
  (forall y, In y pre -> ident y <> ident o) ->
  indexOf_from same_object (pre ++ o :: post) o i = (i + Z.of_nat (length pre))%Z.
Proof.
  revert i. induction pre as [ | y pre IH]; intros i Hpre.
  - cbn [app indexOf_from length]. unfold same_object. rewrite Nat.eqb_refl.
    cbn. lia.
  - cbn [app indexOf_from].
    assert (same_object y o = false) as ->.
    { unfold same_object. apply Nat.eqb_neq. apply Hpre. left. reflexivity. }
    rewrite IH by (intros z Hz; apply Hpre; right; exact Hz).
    cbn [length]. lia.
Qed.

Lemma splice1_at {A : Type} (pre post : list A) (x : A) :
  splice1 (pre ++ x :: post) (Z.of_nat (length pre)) = pre ++ post.
Proof.
  unfold splice1.
  assert ((Z.of_nat (length pre) <? 0)%Z = false) as -> by (apply Z.ltb_ge; lia).
  rewrite Z.min_l by (rewrite length_app; simpl; lia).
  rewrite Nat2Z.id.
  rewrite firstn_app, firstn_all, Nat.sub_diag. cbn [firstn]. rewrite app_nil_r.
  f_equal.
  replace (S (length pre)) with (length pre + 1) by lia.
  rewrite skipn_app, skipn_all2 by lia.
  replace (length pre + 1 - length pre) with 1 by lia. reflexivity.
Qed.

Lemma same_ident_same_object (l : list UserObject) (o o' : UserObject) :
  NoDup (map ident l) -> In o l -> In o' l -> ident o' = ident o -> o' = o.
Proof.
  induction l as [ | x l IH]; intros Hnd Ho Ho' E; [destruct Ho | ].
  cbn [map] in Hnd. apply NoDup_cons_iff in Hnd as [Hx Hnd].
  destruct Ho as [-> | Ho], Ho' as [-> | Ho'].
  - reflexivity.
  - exfalso. apply Hx. rewrite <- E. apply in_map. exact Ho'.
  - exfalso. apply Hx. rewrite E. apply in_map. exact Ho.
  - apply IH; assumption.
Qed.

Lemma distinct_coherent (b : Backend) : distinct_objects b -> coherent b.
Proof.
  intros Hnd o o' Ho Ho' E. exact (same_ident_same_object _ o o' Hnd Ho Ho' E).
Qed.

(** [revokeAccess] removes the object that [_findUser] returned, the first
    one with the email: no earlier entry is that object, since no earlier
    entry has the email. *)
Lemma revokeAccess_found (user : string) (b : Backend) (pre post : list UserObject)
      (o : UserObject) :
  coherent b ->
  _userList b = pre ++ o :: post ->
  email (fields o) = user ->
  ~ In user (map (fun x => email (fields x)) pre) ->
  findUser (_userList b) user = Some o ->
  revokeAccess user b =
  (_returnSuccess, {| _userList := pre ++ post; allocated := allocated b |}).
Proof.
  intros Hco Hl He Hpre Hf. unfold revokeAccess, _findUser. rewrite Hf.
  unfold indexOf. rewrite Hl. rewrite indexOf_from_first.
  - rewrite Z.add_0_l, splice1_at. reflexivity.
  - intros y Hy E. apply Hpre.
    assert (y = o) as ->.
    { apply Hco; [ | | exact E]; rewrite Hl; apply in_or_app;
        [right; left; reflexivity | left; exact Hy]. }
    rewrite <- He. apply (in_map (fun x => email (fields x))). exact Hy.
Qed.

(** ** The representation invariant *)

Lemma well_formed_distinct (b : Backend) : well_formed b -> distinct_objects b.
Proof.
  intros [Hs _]. unfold distinct_objects.
  induction Hs as [ | i l Hs IH Hall]; constructor; [ | exact IH].
  intros Hin. rewrite Forall_forall in Hall. specialize (Hall i Hin). lia.
Qed.

Lemma well_formed_coherent (b : Backend) : well_formed b -> coherent b.
Proof. intros H. apply distinct_coherent, well_formed_distinct, H. Qed.

Lemma StronglySorted_app_bound (l : list nat) (n k : nat) :
  StronglySorted lt l -> Forall (fun i => i < n) l ->
  StronglySorted lt (l ++ seq n k) /\ Forall (fun i => i < n + k) (l ++ seq n k).
Proof.
  intros Hs Hb. split.
  - induction Hs as [ | i l Hs IH Hall]; simpl.
    + clear Hb. revert n. induction k as [ | k IHk]; intros n; simpl; constructor.
      * apply IHk.
      * apply Forall_forall. intros j Hj. apply in_seq in Hj. lia.
    + inversion Hb as [ | ? ? Hi Hb']; subst. constructor; [apply IH; exact Hb' | ].
      apply Forall_app. split; [exact Hall | ].
      apply Forall_forall. intros j Hj. apply in_seq in Hj. lia.
  - apply Forall_app. split.
    + eapply Forall_impl; [ | exact Hb]. simpl. intros; lia.
    + apply Forall_forall. intros j Hj. apply in_seq in Hj. lia.
Qed.

Lemma StronglySorted_remove (pre post : list nat) (x : nat) :
  StronglySorted lt (pre ++ x :: post) -> StronglySorted lt (pre ++ post).
Proof.
  induction pre as [ | y pre IH]; simpl; intros Hs.
  - inversion Hs; assumption.
  - inversion Hs as [ | ? ? Hs' Hall]; subst. constructor; [apply IH; exact Hs' | ].
    apply Forall_app in Hall as [H1 H2]. inversion H2; subst.
    apply Forall_app; split; assumption.
Qed.

Lemma set_state_idents (t : UserObject) (st : string) (l : list UserObject) :
  map ident (set_state t st l) = map ident l.
Proof.
  unfold set_state. rewrite map_map. apply map_ext.
  intros o. destruct (same_object o t); reflexivity.
Qed.

Lemma well_formed_inviteUsers (us : list string) (al : string) (b : Backend) :
  well_formed b -> well_formed (snd (inviteUsers us al b)).
Proof.
  intros Hwf. unfold inviteUsers.
  destruct (negb (_hasValue AccessLevel al)); [exact Hwf | ].
  destruct (inviteUsers_existing b us); [exact Hwf | ].
  cbn [snd]. rewrite inviteUsers_push_spec. destruct Hwf as [Hs Hb].
  unfold well_formed, idents. cbn [_userList allocated].
  rewrite map_app, fresh_objects_idents.
  apply StronglySorted_app_bound; assumption.
Qed.

Lemma well_formed_revokeAccess (u : string) (b : Backend) :
  well_formed b -> well_formed (snd (revokeAccess u b)).
Proof.
  intros Hwf. destruct (findUser (_userList b) u) as [o | ] eqn:E.
  - destruct (findUser_Some _ _ _ E) as (pre & post & Hl & He & Hpre).
    rewrite (revokeAccess_found u b pre post o (well_formed_coherent b Hwf) Hl He Hpre E).
    cbn [snd]. destruct Hwf as [Hs Hb]. unfold well_formed, idents in *.
    cbn [_userList allocated]. rewrite Hl in *. rewrite map_app in *. cbn [map] in *.
    split; [eapply StronglySorted_remove; exact Hs | ].
    apply Forall_app in Hb as [H1 H2]. inversion H2; subst.
    apply Forall_app; split; assumption.
  - unfold revokeAccess, _findUser. rewrite E. exact Hwf.
Qed.

Lemma well_formed_markAsActive (u : string) (b : Backend) :
  well_formed b -> well_formed (snd (markAsActive u b)).
Proof.
  intros Hwf. unfold markAsActive, _findUser.
  destruct (findUser (_userList b) u) as [o | ]; [ | exact Hwf].
  cbn [snd]. unfold well_formed, idents in *. cbn [_userList allocated].
  rewrite set_state_idents. exact Hwf.
Qed.

Lemma well_formed_call (c : Call) (b : Backend) :
  well_formed b -> well_formed (snd (call c b)).
Proof.
  intros Hwf. destruct c as [ | us al | u | u | u]; cbn [call].
  - exact Hwf.
  - apply well_formed_inviteUsers; exact Hwf.
  - unfold resendInvite. destruct (_findUser b u); exact Hwf.
  - apply well_formed_revokeAccess; exact Hwf.
  - apply well_formed_markAsActive; exact Hwf.
Qed.

Lemma well_formed_run (cs : list Call) (b : Backend) :
  well_formed b -> well_formed (run cs b).
Proof.
  revert b. induction cs as [ | c cs IH]; intros b Hwf; cbn [run]; [exact Hwf | ].
  apply IH, well_formed_call, Hwf.
Qed.

Lemma well_formed_seed : well_formed ScalyrBackend.
Proof.
  split; cbn.
  - repeat (constructor; [ | repeat constructor; lia ]). constructor.
  - repeat constructor; lia.
Qed.

Lemma reachable_well_formed (b : Backend) : reachable b -> well_formed b.
Proof. intros [cs ->]. apply well_formed_run, well_formed_seed. Qed.

(** ** [getUsers] *)

Lemma _copyUserRecord_created (source : UserObject) :
  _copyUserRecord source = created (fields source).
Proof. destruct source as [i [e al st]]; reflexivity. Qed.

Lemma getUsers_listing (b : Backend) : getUsers b = (listing (records b), b).
Proof.
  unfold getUsers, listing, records, _returnResult, _returnPromise.
  rewrite map_map.
  assert (map _copyUserRecord (_userList b) =
          map (fun o => created (fields o)) (_userList b)) as ->
    by (apply map_ext; intros o; apply _copyUserRecord_created).
  reflexivity.
Qed.

(** ** [inviteUsers] *)

Lemma inviteUsers_invalid (us : list string) (al : string) (b : Backend) :
  ~ In al AccessLevel ->
  inviteUsers us al b =
  (failure "invalidAccess"
     ("The specified accessLevel " ++ dquote ++ al ++ dquote ++ " is not valid.")%string, b).
Proof.
  intros H. unfold inviteUsers. rewrite (_hasValue_invalid al H). reflexivity.
Qed.

Lemma inviteUsers_valid (us : list string) (al : string) (b : Backend) :
  In al AccessLevel ->
  inviteUsers us al b =
  match inviteUsers_existing b us with
  | Some u =>
      (failure "userExists"
         ("The specified user " ++ dquote ++ u ++ dquote ++ " already exists.")%string, b)
  | None => (resolve success, inviteUsers_push us al b)
  end.
Proof.
  intros H. unfold inviteUsers.
  rewrite (proj2 (_hasValue_AccessLevel al) H). reflexivity.
Qed.

(** C1: with a valid access level and at least one email of the batch
    already in the directory, [inviteUsers] rejects with status
    [userExists], naming an email of the batch that exists, and the backend
    after the call is the backend before it: nothing inserted, removed or
    modified. *)
Theorem C1_invite_existing_rejected_unchanged
        (b : Backend) (us : list string) (al : string) :
  In al AccessLevel ->
  (exists u, In u us /\ In u (emails b)) ->
  exists u,
    In u us /\ In u (emails b) /\
    inviteUsers us al b =
    (reject {| status := "userExists"; users := None;
               message := Some ("The specified user " ++ dquote ++ u ++ dquote
                                  ++ " already exists.")%string |}, b).
Proof.
  intros Hal Hex. rewrite (inviteUsers_valid us al b Hal).
  destruct (inviteUsers_existing_present b us Hex) as [v Hv]. rewrite Hv.
  destruct (inviteUsers_existing_Some b us v Hv) as [H1 H2].
  exists v. repeat split; assumption.
Qed.

Lemma C1_witness :
  In "full" AccessLevel /\
  (exists u, In u ["new@x.com"; "jeff@scalyr.com"] /\ In u (emails ScalyrBackend)) /\
  exists u,
    In u ["new@x.com"; "jeff@scalyr.com"] /\ In u (emails ScalyrBackend) /\
    inviteUsers ["new@x.com"; "jeff@scalyr.com"] "full" ScalyrBackend =
    (reject {| status := "userExists"; users := None;
               message := Some ("The specified user " ++ dquote ++ u ++ dquote
                                  ++ " already exists.")%string |}, ScalyrBackend).
Proof.
  assert (In "full" AccessLevel) as Hal by (vm_compute; tauto).
  assert (exists u, In u ["new@x.com"; "jeff@scalyr.com"] /\ In u (emails ScalyrBackend))
    as Hex by (exists "jeff@scalyr.com"; vm_compute; tauto).
  split; [exact Hal | split; [exact Hex | ]].
  exact (C1_invite_existing_rejected_unchanged ScalyrBackend
           ["new@x.com"; "jeff@scalyr.com"] "full" Hal Hex).
Defined.

(** C2: with a valid access level and a batch of emails none of which is in
    the directory, [inviteUsers] resolves with success; the directory
    afterwards is the prior objects, untouched and in their order, followed
    by one new object per email in input order, and [getUsers] then lists
    the prior records followed by one record per email with state
    [invited] and the given access level. *)
Theorem C2_invite_absent_appends (b : Backend) (us : list string) (al : string) :
  In al AccessLevel ->
  (forall u, In u us -> ~ In u (emails b)) ->
  exists b',
    inviteUsers us al b = (resolve success, b') /\
    _userList b' = _userList b ++ fresh_objects (allocated b) al us /\
    getUsers b' = (listing (records b ++ map (invited al) us), b').
Proof.
  intros Hal Hnew. exists (inviteUsers_push us al b).
  rewrite (inviteUsers_valid us al b Hal).
  rewrite (proj2 (inviteUsers_existing_None b us) Hnew).
  split; [reflexivity | ].
  rewrite getUsers_listing, inviteUsers_push_spec. cbn [_userList].
  split; [reflexivity | ].
  unfold records. cbn [_userList]. now rewrite map_app, fresh_objects_fields.
Qed.

Lemma C2_witness :
  In "read-only" AccessLevel /\
  (forall u, In u ["new@x.com"; "other@x.com"] -> ~ In u (emails ScalyrBackend)) /\
  exists b',
    inviteUsers ["new@x.com"; "other@x.com"] "read-only" ScalyrBackend = (resolve success, b') /\
    _userList b' =
      _userList ScalyrBackend
        ++ fresh_objects (allocated ScalyrBackend) "read-only" ["new@x.com"; "other@x.com"] /\
    getUsers b' =
      (listing (records ScalyrBackend
                  ++ map (invited "read-only") ["new@x.com"; "other@x.com"]), b').
Proof.
  assert (In "read-only" AccessLevel) as Hal by (vm_compute; tauto).
  assert (forall u, In u ["new@x.com"; "other@x.com"] -> ~ In u (emails ScalyrBackend))
    as Hnew.
  { intros u [<- | [<- | []]]; vm_compute;
      intros H; repeat (destruct H as [H | H]; [discriminate H | ]); exact H. }
  split; [exact Hal | split; [exact Hnew | ]].
  exact (C2_invite_absent_appends ScalyrBackend ["new@x.com"; "other@x.com"]
           "read-only" Hal Hnew).
Defined.

(** C6: with an access level that is none of [read-only], [full],
    [limited], [inviteUsers] rejects with status [invalidAccess] whatever
    the emails are, and the backend is unchanged. *)
Theorem C6_invite_invalid_access_rejected
        (b : Backend) (us : list string) (al : string) :
  ~ In al AccessLevel ->
  inviteUsers us al b =
  (reject {| status := "invalidAccess"; users := None;
             message := Some ("The specified accessLevel " ++ dquote ++ al ++ dquote
                                ++ " is not valid.")%string |}, b).
Proof. intros H. apply inviteUsers_invalid. exact H. Qed.

Lemma C6_witness :
  ~ In "admin" AccessLevel /\
  inviteUsers ["new@x.com"] "admin" ScalyrBackend =
  (reject {| status := "invalidAccess"; users := None;
             message := Some ("The specified accessLevel " ++ dquote ++ "admin" ++ dquote
                                ++ " is not valid.")%string |}, ScalyrBackend).
Proof.
  assert (~ In "admin" AccessLevel) as H.
  { vm_compute. intros H; repeat (destruct H as [H | H]; [discriminate H | ]); exact H. }
  split; [exact H | ].
  exact (C6_invite_invalid_access_rejected ScalyrBackend ["new@x.com"] "admin" H).
Defined.

(** C10: when the access level is invalid and some email of the batch
    already exists, the access-level check decides: [inviteUsers] rejects
    with status [invalidAccess], not [userExists], and the backend is
    unchanged. *)
Theorem C10_invite_access_check_first
        (b : Backend) (us : list string) (al : string) :
  ~ In al AccessLevel ->
  (exists u, In u us /\ In u (emails b)) ->
  exists msg,
    inviteUsers us al b =
    (reject {| status := "invalidAccess"; users := None; message := Some msg |}, b).
Proof.
  intros H _. eexists. apply inviteUsers_invalid. exact H.
Qed.

Lemma C10_witness :
  ~ In "Full" AccessLevel /\
  (exists u, In u ["jeff@scalyr.com"] /\ In u (emails ScalyrBackend)) /\
  exists msg,
    inviteUsers ["jeff@scalyr.com"] "Full" ScalyrBackend =
    (reject {| status := "invalidAccess"; users := None; message := Some msg |},
     ScalyrBackend).
Proof.
  assert (~ In "Full" AccessLevel) as H.
  { vm_compute. intros H; repeat (destruct H as [H | H]; [discriminate H | ]); exact H. }
  assert (exists u, In u ["jeff@scalyr.com"] /\ In u (emails ScalyrBackend)) as Hex
    by (exists "jeff@scalyr.com"; vm_compute; tauto).
  split; [exact H | split; [exact Hex | ]].
  exact (C10_invite_access_check_first ScalyrBackend ["jeff@scalyr.com"] "Full" H Hex).
Defined.

(** ** [resendInvite], [revokeAccess], [markAsActive] *)

Lemma _findUser_absent (b : Backend) (u : string) :
  ~ In u (emails b) -> _findUser b u = None.
Proof. intros H. apply findUser_None. exact H. Qed.

(** C4: on an email that no record of the directory has, each of
    [resendInvite], [revokeAccess] and [markAsActive] rejects with status
    [userNotExists] and leaves the backend unchanged. *)
Theorem C4_absent_email_rejected_unchanged (b : Backend) (u : string) :
  ~ In u (emails b) ->
  let notFound :=
    reject {| status := "userNotExists"; users := None;
              message := Some ("The specified user " ++ dquote ++ u ++ dquote
                                 ++ " does not exists.")%string |} in
  resendInvite u b = (notFound, b) /\
  revokeAccess u b = (notFound, b) /\
  markAsActive u b = (notFound, b).
Proof.
  intros H. unfold resendInvite, revokeAccess, markAsActive.
  rewrite (_findUser_absent b u H). repeat split.
Qed.

Lemma C4_witness :
  ~ In "nobody@x.com" (emails ScalyrBackend) /\
  let notFound :=
    reject {| status := "userNotExists"; users := None;
              message := Some ("The specified user " ++ dquote ++ "nobody@x.com" ++ dquote
                                 ++ " does not exists.")%string |} in
  resendInvite "nobody@x.com" ScalyrBackend = (notFound, ScalyrBackend) /\
  revokeAccess "nobody@x.com" ScalyrBackend = (notFound, ScalyrBackend) /\
  markAsActive "nobody@x.com" ScalyrBackend = (notFound, ScalyrBackend).
Proof.
  assert (~ In "nobody@x.com" (emails ScalyrBackend)) as H.
  { vm_compute. intros H; repeat (destruct H as [H | H]; [discriminate H | ]); exact H. }
  split; [exact H | ].
  exact (C4_absent_email_rejected_unchanged ScalyrBackend "nobody@x.com" H).
Defined.

(** C5: in any backend that denotes a JavaScript heap, on an email that
    some record has, [revokeAccess] resolves with success whatever the
    state of the record; the directory afterwards is
    the directory before with exactly one object taken out, the first one
    with that email, every other object untouched and in its place; and
    [getUsers] then lists one record less. *)
Theorem C5_revoke_removes_exactly_one (b : Backend) (u : string) :
  coherent b ->
  In u (emails b) ->
  exists pre o post b',
    _userList b = pre ++ o :: post /\
    email (fields o) = u /\
    ~ In u (map (fun x => email (fields x)) pre) /\
    revokeAccess u b = (resolve success, b') /\
    _userList b' = pre ++ post /\
    getUsers b' = (listing (map fields pre ++ map fields post), b') /\
    S (length (records b')) = length (records b).
Proof.
  intros Hnd Hin.
  destruct (findUser_present (_userList b) u Hin) as [o Ho].
  destruct (findUser_Some _ _ _ Ho) as (pre & post & Hl & He & Hpre).
  exists pre, o, post, {| _userList := pre ++ post; allocated := allocated b |}.
  repeat split; try assumption.
  - exact (revokeAccess_found u b pre post o Hnd Hl He Hpre Ho).
  - rewrite getUsers_listing. unfold records. cbn [_userList].
    now rewrite map_app.
  - unfold records. cbn [_userList]. rewrite Hl, !length_map, !length_app.
    cbn [length]. lia.
Qed.

Lemma C5_witness :
  coherent ScalyrBackend /\
  In "asma@scalyr.com" (emails ScalyrBackend) /\
  exists pre o post b',
    _userList ScalyrBackend = pre ++ o :: post /\
    email (fields o) = "asma@scalyr.com" /\
    ~ In "asma@scalyr.com" (map (fun x => email (fields x)) pre) /\
    revokeAccess "asma@scalyr.com" ScalyrBackend = (resolve success, b') /\
    _userList b' = pre ++ post /\
    getUsers b' = (listing (map fields pre ++ map fields post), b') /\
    S (length (records b')) = length (records ScalyrBackend).
Proof.
  assert (coherent ScalyrBackend) as Hnd.
  { apply distinct_coherent. vm_compute.
    repeat (constructor; [simpl; lia | ]). constructor. }
  assert (In "asma@scalyr.com" (emails ScalyrBackend)) as Hin by (vm_compute; tauto).
  split; [exact Hnd | split; [exact Hin | ]].
  exact (C5_revoke_removes_exactly_one ScalyrBackend "asma@scalyr.com" Hnd Hin).
Defined.

(** C8: on an email that some record has, [resendInvite] resolves with
    success and the backend after the call is the backend before it. *)
Theorem C8_resend_acknowledges_only (b : Backend) (u : string) :
  In u (emails b) ->
  resendInvite u b = (resolve success, b).
Proof.
  intros Hin. unfold resendInvite, _findUser.
  destruct (findUser_present (_userList b) u Hin) as [o ->]. reflexivity.
Qed.

Lemma C8_witness :
  In "steve@scalyr.com" (emails ScalyrBackend) /\
  resendInvite "steve@scalyr.com" ScalyrBackend = (resolve success, ScalyrBackend).
Proof.
  assert (In "steve@scalyr.com" (emails ScalyrBackend)) as Hin by (vm_compute; tauto).
  split; [exact Hin | ].
  exact (C8_resend_acknowledges_only ScalyrBackend "steve@scalyr.com" Hin).
Defined.

(** C7: [getUsers] always resolves, with status [success] and the records
    of the directory by value in list order, and leaves the backend as it
    was, so that a second call right after the first resolves to an equal
    value; and in every state reached from the seed the list order is the
    order in which the objects were created.  What it hands out is a
    snapshot made of copies: every element of the array is an object
    created for the caller by [_copyUserRecord], the i-th with the field
    values of the i-th record; none is a reference to an object of the
    directory, so that no write of the caller through an element reaches
    the directory. *)
Theorem C7_getUsers_snapshot :
  (forall b, getUsers b =
             (resolve {| status := "success";
                         users := Some (map created (records b));
                         message := None |}, b)) /\
  (forall b, fst (getUsers (snd (getUsers b))) = fst (getUsers b)) /\
  (forall cs, StronglySorted lt (idents (run cs ScalyrBackend))) /\
  (forall b, handed_out (fst (getUsers b)) = map created (records b)) /\
  (forall b o, ~ In (reference o) (handed_out (fst (getUsers b)))) /\
  (forall b h st,
      In h (handed_out (fst (getUsers b))) ->
      write_state h st (_userList b) = _userList b).
Proof.
  assert (forall b, handed_out (fst (getUsers b)) = map created (records b)) as Hout
    by (intros b; rewrite getUsers_listing; reflexivity).
  split; [exact getUsers_listing | split; [ | split; [ | split; [exact Hout | split]]]].
  - intros b. now rewrite !getUsers_listing.
  - intros cs. exact (proj1 (well_formed_run cs ScalyrBackend well_formed_seed)).
  - intros b o Hin. rewrite Hout in Hin.
    apply in_map_iff in Hin as (r & E & _). discriminate E.
  - intros b h st Hin. rewrite Hout in Hin.
    apply in_map_iff in Hin as (r & <- & _). reflexivity.
Qed.

Lemma C7_witness :
  let h := created (mkUserRecord "jeff@scalyr.com" "full" "invited") in
  In h (handed_out (fst (getUsers ScalyrBackend))) /\
  write_state h "active" (_userList ScalyrBackend) = _userList ScalyrBackend.
Proof.
  intros h.
  assert (In h (handed_out (fst (getUsers ScalyrBackend)))) as Hin by (vm_compute; tauto).
  split; [exact Hin | ].
  exact (proj2 (proj2 (proj2 (proj2 (proj2 C7_getUsers_snapshot))))
           ScalyrBackend h "active" Hin).
Defined.

(** ** Following one object through the calls *)

Lemma in_set_state (t : UserObject) (st : string) (l : list UserObject) (o' : UserObject) :
  In o' (set_state t st l) ->
  exists o, In o l /\
    (o' = o \/
     o' = {| ident := ident o;
             fields := {| email := email (fields o);
                          accessLevel := accessLevel (fields o);
                          state := st |} |}).
Proof.
  unfold set_state. intros H. apply in_map_iff in H as (o & E & Ho).
  exists o. split; [exact Ho | ].
  destruct (same_object o t); [right | left]; symmetry; exact E.
Qed.

(** Across one call an object that stays in the directory is untouched,
    or the call is [markAsActive] and only its state became [active]. *)
Lemma call_tracks (c : Call) (b : Backend) (o o' : UserObject) :
  well_formed b ->
  In o (_userList b) ->
  In o' (_userList (snd (call c b))) ->
  ident o' = ident o ->
  o' = o \/ ((exists u, c = CallMarkAsActive u) /\ o' = activated o).
Proof.
  intros Hwf Ho Ho' E.
  pose proof (well_formed_distinct b Hwf) as Hnd.
  assert (In o' (_userList b) -> o' = o) as Hsame
    by (intros H; exact (same_ident_same_object _ o o' Hnd Ho H E)).
  destruct c as [ | us al | u | u | u]; cbn [call] in Ho'.
  - left. apply Hsame. exact Ho'.
  - left. unfold inviteUsers in Ho'.
    destruct (negb (_hasValue AccessLevel al)); [exact (Hsame Ho') | ].
    destruct (inviteUsers_existing b us); [exact (Hsame Ho') | ].
    cbn [snd] in Ho'. rewrite inviteUsers_push_spec in Ho'. cbn [_userList] in Ho'.
    apply in_app_or in Ho' as [Ho' | Ho']; [exact (Hsame Ho') | ].
    exfalso. apply (in_map ident) in Ho'. rewrite fresh_objects_idents in Ho'.
    apply in_seq in Ho'. destruct Hwf as [_ Hb]. rewrite Forall_forall in Hb.
    specialize (Hb (ident o) (in_map ident _ _ Ho)). lia.
  - left. unfold resendInvite in Ho'. destruct (_findUser b u); exact (Hsame Ho').
  - left. destruct (findUser (_userList b) u) as [t | ] eqn:Ef.
    + destruct (findUser_Some _ _ _ Ef) as (pre & post & Hl & He & Hpre).
      rewrite (revokeAccess_found u b pre post t (well_formed_coherent b Hwf) Hl He Hpre Ef)
        in Ho'.
      cbn [snd _userList] in Ho'. apply Hsame. rewrite Hl.
      apply in_app_or in Ho' as [H | H]; apply in_or_app; [left | right; right]; exact H.
    + unfold revokeAccess, _findUser in Ho'. rewrite Ef in Ho'. exact (Hsame Ho').
  - unfold markAsActive, _findUser in Ho'.
    destruct (findUser (_userList b) u) as [t | ]; [ | left; exact (Hsame Ho')].
    cbn [snd _userList] in Ho'.
    apply in_set_state in Ho' as (x & Hx & [-> | ->]).
    + left. exact (Hsame Hx).
    + cbn [ident] in E.
      rewrite (same_ident_same_object _ o x Hnd Ho Hx E).
      right. split; [exists u; reflexivity | reflexivity].
Qed.

Lemma call_allocated (c : Call) (b : Backend) :
  allocated b <= allocated (snd (call c b)).
Proof.
  destruct c as [ | us al | u | u | u]; cbn [call].
  - apply Nat.le_refl.
  - unfold inviteUsers. destruct (negb (_hasValue AccessLevel al)); [apply Nat.le_refl | ].
    destruct (inviteUsers_existing b us); [apply Nat.le_refl | ].
    cbn [snd]. rewrite inviteUsers_push_spec. cbn [allocated]. lia.
  - unfold resendInvite. destruct (_findUser b u); apply Nat.le_refl.
  - unfold revokeAccess. destruct (_findUser b u); apply Nat.le_refl.
  - unfold markAsActive. destruct (_findUser b u); apply Nat.le_refl.
Qed.

(** An identity of the directory after a call was there before, or is new. *)
Lemma call_idents (c : Call) (b : Backend) (i : nat) :
  well_formed b ->
  In i (idents (snd (call c b))) ->
  In i (idents b) \/ allocated b <= i.
Proof.
  intros Hwf Hi. destruct c as [ | us al | u | u | u]; cbn [call] in Hi.
  - left; exact Hi.
  - unfold inviteUsers in Hi.
    destruct (negb (_hasValue AccessLevel al)); [left; exact Hi | ].
    destruct (inviteUsers_existing b us); [left; exact Hi | ].
    cbn [snd] in Hi. rewrite inviteUsers_push_spec in Hi.
    unfold idents in Hi. cbn [_userList] in Hi.
    rewrite map_app, fresh_objects_idents in Hi.
    apply in_app_or in Hi as [Hi | Hi]; [left; exact Hi | right].
    apply in_seq in Hi. lia.
  - unfold resendInvite in Hi. destruct (_findUser b u); left; exact Hi.
  - left. destruct (findUser (_userList b) u) as [t | ] eqn:Ef.
    + destruct (findUser_Some _ _ _ Ef) as (pre & post & Hl & He & Hpre).
      rewrite (revokeAccess_found u b pre post t (well_formed_coherent b Hwf) Hl He Hpre Ef)
        in Hi.
      unfold idents in *. cbn [snd _userList] in Hi. rewrite Hl.
      rewrite map_app in *. cbn [map].
      apply in_app_or in Hi as [H | H]; apply in_or_app; [left | right; right]; exact H.
    + unfold revokeAccess, _findUser in Hi. rewrite Ef in Hi. exact Hi.
  - left. unfold markAsActive, _findUser in Hi.
    destruct (findUser (_userList b) u) as [t | ]; [ | exact Hi].
    unfold idents in *. cbn [snd _userList] in Hi.
    rewrite set_state_idents in Hi. exact Hi.
Qed.

(** An identity is never given twice: one that is in the directory after
    some calls and was allocated before them was in the directory before. *)
Lemma run_idents (cs : list Call) (b : Backend) (i : nat) :
  well_formed b ->
  In i (idents (run cs b)) -> i < allocated b -> In i (idents b).
Proof.
  revert b. induction cs as [ | c cs IH]; intros b Hwf Hi Hlt; cbn [run] in Hi.
  - exact Hi.
  - pose proof (call_allocated c b) as Hle.
    assert (In i (idents (snd (call c b)))) as H1
      by (apply IH; [apply well_formed_call; exact Hwf | exact Hi | lia]).
    destruct (call_idents c b i Hwf H1) as [H | H]; [exact H | lia].
Qed.

Lemma run_keeps_active (cs : list Call) (b : Backend) (o o' : UserObject) :
  well_formed b ->
  In o (_userList b) ->
  In o' (_userList (run cs b)) ->
  ident o' = ident o ->
  state (fields o) = UserState_ACTIVE ->
  state (fields o') = UserState_ACTIVE.
Proof.
  revert b o. induction cs as [ | c cs IH]; intros b o Hwf Ho Ho' E Hact; cbn [run] in Ho'.
  - rewrite (same_ident_same_object _ o o' (well_formed_distinct b Hwf) Ho Ho' E).
    exact Hact.
  - assert (ident o < allocated b) as Hlt.
    { destruct Hwf as [_ Hb]. rewrite Forall_forall in Hb.
      apply Hb. unfold idents. apply in_map. exact Ho. }
    assert (In (ident o) (idents (snd (call c b)))) as Hmid.
    { apply (run_idents cs); [apply well_formed_call; exact Hwf | | ].
      - rewrite <- E. unfold idents. apply in_map. exact Ho'.
      - pose proof (call_allocated c b). lia. }
    unfold idents in Hmid. apply in_map_iff in Hmid as (o1 & E1 & Ho1).
    apply (IH (snd (call c b)) o1).
    + apply well_formed_call; exact Hwf.
    + exact Ho1.
    + exact Ho'.
    + congruence.
    + destruct (call_tracks c b o o1 Hwf Ho Ho1 E1) as [-> | [_ ->]];
        [exact Hact | reflexivity].
Qed.

(** C9: in a directory state reached from the seed, take a record of the
    directory.  Whatever calls follow, as long as the record is in the
    directory, once its state is [active] it stays [active]; and a single
    call that changes the state of the record is a [markAsActive], after
    which the state is [active]. *)
Theorem C9_state_one_way (b : Backend) (o o' : UserObject) :
  reachable b ->
  In o (_userList b) ->
  ident o' = ident o ->
  (forall cs,
      In o' (_userList (run cs b)) ->
      state (fields o) = UserState_ACTIVE ->
      state (fields o') = UserState_ACTIVE) /\
  (forall c,
      In o' (_userList (snd (call c b))) ->
      state (fields o') <> state (fields o) ->
      (exists u, c = CallMarkAsActive u) /\ state (fields o') = UserState_ACTIVE).
Proof.
  intros Hr Ho E. pose proof (reachable_well_formed b Hr) as Hwf. split.
  - intros cs Ho' Hact. exact (run_keeps_active cs b o o' Hwf Ho Ho' E Hact).
  - intros c Ho' Hne.
    destruct (call_tracks c b o o' Hwf Ho Ho' E) as [-> | [Hc ->]].
    + contradiction.
    + split; [exact Hc | reflexivity].
Qed.

Lemma C9_witness :
  let jeff := {| ident := 2; fields := mkUserRecord "jeff@scalyr.com" "full" "invited" |} in
  let asma := {| ident := 1; fields := mkUserRecord "asma@scalyr.com" "full" "active" |} in
  let later := [CallRevokeAccess "czerwin@scalyr.com";
                CallInviteUsers ["new@x.com"] "limited";
                CallMarkAsActive "jeff@scalyr.com"] in
  reachable ScalyrBackend /\
  (In jeff (_userList ScalyrBackend) /\
   ident (activated jeff) = ident jeff /\
   In (activated jeff)
      (_userList (snd (call (CallMarkAsActive "jeff@scalyr.com") ScalyrBackend))) /\
   state (fields (activated jeff)) <> state (fields jeff) /\
   (exists u, CallMarkAsActive "jeff@scalyr.com" = CallMarkAsActive u) /\
   state (fields (activated jeff)) = UserState_ACTIVE) /\
  (In asma (_userList ScalyrBackend) /\
   In asma (_userList (run later ScalyrBackend)) /\
   state (fields asma) = UserState_ACTIVE).
Proof.
  intros jeff asma later.
  assert (reachable ScalyrBackend) as Hr by (exists []; reflexivity).
  assert (In jeff (_userList ScalyrBackend)) as Hj by (vm_compute; tauto).
  assert (In asma (_userList ScalyrBackend)) as Ha by (vm_compute; tauto).
  assert (In (activated jeff)
             (_userList (snd (call (CallMarkAsActive "jeff@scalyr.com") ScalyrBackend))))
    as Hj' by (vm_compute; tauto).
  assert (In asma (_userList (run later ScalyrBackend))) as Ha' by (vm_compute; tauto).
  assert (state (fields (activated jeff)) <> state (fields jeff)) as Hne
    by (vm_compute; discriminate).
  split; [exact Hr | split].
  - split; [exact Hj | split; [reflexivity | split; [exact Hj' | split; [exact Hne | ]]]].
    exact (proj2 (C9_state_one_way ScalyrBackend jeff (activated jeff) Hr Hj eq_refl)
             (CallMarkAsActive "jeff@scalyr.com") Hj' Hne).
  - split; [exact Ha | split; [exact Ha' | ]].
    exact (proj1 (C9_state_one_way ScalyrBackend asma asma Hr Ha eq_refl)
             later Ha' eq_refl).
Defined.

(** ** Uniqueness of emails *)

Lemma set_state_emails (t : UserObject) (st : string) (l : list UserObject) :
  map (fun o => email (fields o)) (set_state t st l) = map (fun o => email (fields o)) l.
Proof.
  unfold set_state. rewrite map_map. apply map_ext.
  intros o. destruct (same_object o t); reflexivity.
Qed.

Lemma fresh_objects_emails (n : nat) (al : string) (us : list string) :
  map (fun o => email (fields o)) (fresh_objects n al us) = us.
Proof.
  revert n. induction us as [ | u us IH]; intros n; simpl; [reflexivity | ].
  now rewrite IH.
Qed.

(** Every call keeps the emails of the directory pairwise different,
    provided an [inviteUsers] batch does not name an email twice. *)
Lemma unique_emails_call (c : Call) (b : Backend) :
  well_formed b ->
  NoDup (emails b) ->
  (forall us al, c = CallInviteUsers us al -> NoDup us) ->
  NoDup (emails (snd (call c b))).
Proof.
  intros Hwf Hnd Hbatch. destruct c as [ | us al | u | u | u]; cbn [call].
  - exact Hnd.
  - unfold inviteUsers.
    destruct (negb (_hasValue AccessLevel al)); [exact Hnd | ].
    destruct (inviteUsers_existing b us) eqn:E; [exact Hnd | ].
    cbn [snd]. rewrite inviteUsers_push_spec. unfold emails in *. cbn [_userList].
    rewrite map_app, fresh_objects_emails. apply NoDup_app.
    + exact Hnd.
    + exact (Hbatch us al eq_refl).
    + intros e He Hus.
      exact (proj1 (inviteUsers_existing_None b us) E e Hus He).
  - unfold resendInvite. destruct (_findUser b u); exact Hnd.
  - destruct (findUser (_userList b) u) as [t | ] eqn:Ef.
    + destruct (findUser_Some _ _ _ Ef) as (pre & post & Hl & He & Hpre).
      rewrite (revokeAccess_found u b pre post t (well_formed_coherent b Hwf) Hl He Hpre Ef).
      unfold emails in *. cbn [snd _userList]. rewrite Hl in Hnd.
      rewrite map_app in *. cbn [map] in Hnd.
      eapply NoDup_remove_1. exact Hnd.
    + unfold revokeAccess, _findUser. rewrite Ef. exact Hnd.
  - unfold markAsActive, _findUser.
    destruct (findUser (_userList b) u) as [t | ]; [ | exact Hnd].
    unfold emails in *. cbn [snd _userList]. rewrite set_state_emails. exact Hnd.
Qed.

Lemma unique_emails_run (cs : list Call) (b : Backend) :
  well_formed b ->
  NoDup (emails b) ->
  batches_without_repeats cs ->
  NoDup (emails (run cs b)).
Proof.
  revert b. induction cs as [ | c cs IH]; intros b Hwf Hnd Hcs; cbn [run]; [exact Hnd | ].
  inversion Hcs as [ | ? ? Hc Hrest]; subst.
  apply IH; [apply well_formed_call; exact Hwf | | exact Hrest].
  apply unique_emails_call; assumption.
Qed.

Lemma unique_emails_seed : NoDup (emails ScalyrBackend).
Proof.
  vm_compute.
  repeat (constructor;
          [intros H; repeat (destruct H as [H | H]; [discriminate H | ]); exact H | ]).
  constructor.
Qed.

(** C3: the directory reached from the seed by the single call
    [inviteUsers(["dup@x.com", "dup@x.com"], "full")], which resolves with
    success, holds two records with the email [dup@x.com]: the emails of
    the directory are not pairwise different. *)
Theorem C3_repeated_email_in_batch :
  let (p, b) := inviteUsers ["dup@x.com"; "dup@x.com"] "full" ScalyrBackend in
  p = resolve success /\
  reachable b /\
  emails b = ["czerwin@scalyr.com"; "asma@scalyr.com"; "jeff@scalyr.com";
              "claudia@scalyr.com"; "steve@scalyr.com"; "dup@x.com"; "dup@x.com"] /\
  ~ NoDup (emails b).
Proof.
  vm_compute inviteUsers.
  split; [reflexivity | split; [ | split; [reflexivity | ]]].
  - exists [CallInviteUsers ["dup@x.com"; "dup@x.com"] "full"]. reflexivity.
  - intros H.
    do 5 (apply NoDup_cons_iff in H as [_ H]).
    apply NoDup_cons_iff in H as [H _]. apply H. vm_compute. tauto.
Qed.

(** ** Further properties of the helpers *)

(** X1: [_hasValue] is membership among the values, for any object. *)
Theorem _hasValue_iff_In (inputObject : list string) (value : string) :
  _hasValue inputObject value = true <-> In value inputObject.
Proof.
  unfold _hasValue, indexOf. rewrite indexOf_from_found by lia.
  rewrite existsb_exists. split.
  - intros (y & Hy & E). apply String.eqb_eq in E. subst y. exact Hy.
  - intros H. exists value. split; [exact H | apply String.eqb_refl].
Qed.

(** X2: [_findUser] returns [null] exactly when no record has the email;
    otherwise it returns an object of the list with that email, and no
    object before it in the list has the email. *)
Theorem _findUser_first_match (b : Backend) (emailAddress : string) :
  (_findUser b emailAddress = None <-> ~ In emailAddress (emails b)) /\
  (forall o, _findUser b emailAddress = Some o ->
     exists pre post,
       _userList b = pre ++ o :: post /\
       email (fields o) = emailAddress /\
       ~ In emailAddress (map (fun x => email (fields x)) pre)).
Proof.
  split.
  - apply findUser_None.
  - intros o H. apply findUser_Some. exact H.
Qed.

Lemma findUser_app (l l' : list UserObject) (e : string) :
  ~ In e (map (fun o => email (fields o)) l) ->
  findUser (l ++ l') e = findUser l' e.
Proof.
  induction l as [ | x l IH]; intros H; cbn [app findUser]; [reflexivity | ].
  cbn [map] in H.
  destruct (String.eqb_spec (email (fields x)) e) as [E | N].
  - exfalso. apply H. left. exact E.
  - apply IH. intros Hin. apply H. right. exact Hin.
Qed.

Lemma findUser_first (pre post : list UserObject) (o : UserObject) :
  ~ In (email (fields o)) (map (fun x => email (fields x)) pre) ->
  findUser (pre ++ o :: post) (email (fields o)) = Some o.
Proof.
  intros H. rewrite findUser_app by exact H. cbn [findUser].
  now rewrite String.eqb_refl.
Qed.

(** ** The outcome of [inviteUsers] *)

Lemma inviteUsers_push_emails (us : list string) (al : string) (b : Backend) :
  emails (inviteUsers_push us al b) = emails b ++ us.
Proof.
  rewrite inviteUsers_push_spec. unfold emails. cbn [_userList].
  now rewrite map_app, fresh_objects_emails.
Qed.

Lemma inviteUsers_push_app (us1 us2 : list string) (al : string) (b : Backend) :
  inviteUsers_push (us1 ++ us2) al b = inviteUsers_push us2 al (inviteUsers_push us1 al b).
Proof.
  revert b. induction us1 as [ | u us1 IH]; intros b; cbn [app inviteUsers_push].
  - reflexivity.
  - apply IH.
Qed.

(** The first loop returns the first email of the batch that exists. *)
Lemma inviteUsers_existing_first (b : Backend) (pre post : list string) (u : string) :
  (forall v, In v pre -> ~ In v (emails b)) ->
  In u (emails b) ->
  inviteUsers_existing b (pre ++ u :: post) = Some u.
Proof.
  intros Hpre Hu. induction pre as [ | v pre IH]; cbn [app inviteUsers_existing].
  - unfold _findUser. destruct (findUser_present (_userList b) u Hu) as [o ->].
    reflexivity.
  - rewrite (_findUser_absent b v) by (apply Hpre; left; reflexivity).
    apply IH. intros w Hw. apply Hpre. right. exact Hw.
Qed.

(** X3: [inviteUsers] has exactly three outcomes, decided by its two checks:
    success when the access level is valid and every email of the batch is
    absent; rejection with [invalidAccess] exactly when the access level is
    not valid; rejection with [userExists] exactly when the access level is
    valid and some email of the batch exists.  The backend changes on
    success only. *)
Theorem inviteUsers_outcome (us : list string) (al : string) (b : Backend) :
  (fst (inviteUsers us al b) = resolve success <->
   In al AccessLevel /\ (forall u, In u us -> ~ In u (emails b))) /\
  ((exists m, fst (inviteUsers us al b) = failure "invalidAccess" m) <->
   ~ In al AccessLevel) /\
  ((exists m, fst (inviteUsers us al b) = failure "userExists" m) <->
   In al AccessLevel /\ exists u, In u us /\ In u (emails b)) /\
  (fst (inviteUsers us al b) <> resolve success -> snd (inviteUsers us al b) = b).
Proof.
  destruct (in_dec string_dec al AccessLevel) as [Hal | Hal].
  - rewrite (inviteUsers_valid us al b Hal).
    destruct (inviteUsers_existing b us) as [v | ] eqn:E; cbn [fst snd].
    + destruct (inviteUsers_existing_Some b us v E) as [H1 H2].
      split; [ | split; [ | split]].
      * split; [discriminate | ]. intros [_ H]. exfalso. exact (H v H1 H2).
      * split; [intros [m Hm]; discriminate Hm | intros H; contradiction].
      * split; [intros _; split; [exact Hal | exists v; split; assumption] | ].
        intros _. eexists. reflexivity.
      * reflexivity.
    + pose proof (proj1 (inviteUsers_existing_None b us) E) as Hnone.
      split; [ | split; [ | split]].
      * split; [intros _; split; assumption | reflexivity].
      * split; [intros [m Hm]; discriminate Hm | intros H; contradiction].
      * split; [intros [m Hm]; discriminate Hm | ].
        intros [_ (u & H1 & H2)]. exfalso. exact (Hnone u H1 H2).
      * intros H. exfalso. apply H. reflexivity.
  - rewrite (inviteUsers_invalid us al b Hal). cbn [fst snd].
    split; [ | split; [ | split]].
    + split; [discriminate | intros [H _]; contradiction].
    + split; [intros _; exact Hal | intros _; eexists; reflexivity].
    + split; [intros [m Hm]; discriminate Hm | intros [H _]; contradiction].
    + reflexivity.
Qed.

(** X4: When several emails of the batch exist, the rejection names the first
    of them in input order. *)
Theorem inviteUsers_names_first_existing
        (b : Backend) (pre post : list string) (u al : string) :
  In al AccessLevel ->
  (forall v, In v pre -> ~ In v (emails b)) ->
  In u (emails b) ->
  inviteUsers (pre ++ u :: post) al b =
  (failure "userExists"
     ("The specified user " ++ dquote ++ u ++ dquote ++ " already exists.")%string, b).
Proof.
  intros Hal Hpre Hu. rewrite (inviteUsers_valid _ al b Hal).
  now rewrite (inviteUsers_existing_first b pre post u Hpre Hu).
Qed.

Lemma inviteUsers_names_first_existing_witness :
  In "full" AccessLevel /\
  (forall v, In v ["new@x.com"] -> ~ In v (emails ScalyrBackend)) /\
  In "steve@scalyr.com" (emails ScalyrBackend) /\
  inviteUsers (["new@x.com"] ++ "steve@scalyr.com" :: ["asma@scalyr.com"]) "full" ScalyrBackend =
  (failure "userExists"
     ("The specified user " ++ dquote ++ "steve@scalyr.com" ++ dquote
        ++ " already exists.")%string, ScalyrBackend).
Proof.
  assert (In "full" AccessLevel) as Hal by (vm_compute; tauto).
  assert (forall v, In v ["new@x.com"] -> ~ In v (emails ScalyrBackend)) as Hpre.
  { intros v [<- | []]; vm_compute;
      intros H; repeat (destruct H as [H | H]; [discriminate H | ]); exact H. }
  assert (In "steve@scalyr.com" (emails ScalyrBackend)) as Hu by (vm_compute; tauto).
  split; [exact Hal | split; [exact Hpre | split; [exact Hu | ]]].
  exact (inviteUsers_names_first_existing ScalyrBackend ["new@x.com"] ["asma@scalyr.com"]
           "steve@scalyr.com" "full" Hal Hpre Hu).
Defined.

(** X5: One batch is two batches in a row, when the two parts share no email:
    with a valid access level and every email absent, inviting [us1] and
    then [us2] both succeed and leave the backend that inviting
    [us1 ++ us2] at once leaves. *)
Theorem inviteUsers_batch_split (us1 us2 : list string) (al : string) (b : Backend) :
  In al AccessLevel ->
  (forall u, In u (us1 ++ us2) -> ~ In u (emails b)) ->
  (forall u, In u us1 -> ~ In u us2) ->
  let (p1, b1) := inviteUsers us1 al b in
  let (p2, b2) := inviteUsers us2 al b1 in
  p1 = resolve success /\ p2 = resolve success /\
  inviteUsers (us1 ++ us2) al b = (resolve success, b2).
Proof.
  intros Hal Habs Hdisj.
  assert (inviteUsers_existing (inviteUsers_push us1 al b) us2 = None) as E2.
  { apply inviteUsers_existing_None. intros u Hu.
    rewrite inviteUsers_push_emails. intros Hin.
    apply in_app_or in Hin as [Hin | Hin].
    - exact (Habs u (in_or_app _ _ _ (or_intror Hu)) Hin).
    - exact (Hdisj u Hin Hu). }
  rewrite (inviteUsers_valid us1 al b Hal).
  rewrite (proj2 (inviteUsers_existing_None b us1))
    by (intros u Hu; apply Habs, in_or_app; left; exact Hu).
  rewrite (inviteUsers_valid us2 al _ Hal), E2.
  rewrite (inviteUsers_valid (us1 ++ us2) al b Hal).
  rewrite (proj2 (inviteUsers_existing_None b (us1 ++ us2)) Habs).
  rewrite inviteUsers_push_app. repeat split.
Qed.

Lemma inviteUsers_batch_split_witness :
  In "limited" AccessLevel /\
  (forall u, In u (["a@x.com"] ++ ["b@x.com"]) -> ~ In u (emails ScalyrBackend)) /\
  (forall u, In u ["a@x.com"] -> ~ In u ["b@x.com"]) /\
  let (p1, b1) := inviteUsers ["a@x.com"] "limited" ScalyrBackend in
  let (p2, b2) := inviteUsers ["b@x.com"] "limited" b1 in
  p1 = resolve success /\ p2 = resolve success /\
  inviteUsers (["a@x.com"] ++ ["b@x.com"]) "limited" ScalyrBackend = (resolve success, b2).
Proof.
  assert (In "limited" AccessLevel) as Hal by (vm_compute; tauto).
  assert (forall u, In u (["a@x.com"] ++ ["b@x.com"]) -> ~ In u (emails ScalyrBackend))
    as Habs.
  { intros u [<- | [<- | []]]; vm_compute;
      intros H; repeat (destruct H as [H | H]; [discriminate H | ]); exact H. }
  assert (forall u, In u ["a@x.com"] -> ~ In u ["b@x.com"]) as Hdisj.
  { intros u [<- | []] [H | []]. discriminate H. }
  split; [exact Hal | split; [exact Habs | split; [exact Hdisj | ]]].
  exact (inviteUsers_batch_split ["a@x.com"] ["b@x.com"] "limited" ScalyrBackend
           Hal Habs Hdisj).
Defined.

(** ** What every call does to the backend *)

Lemma indexOf_from_in_range (l : list UserObject) (t : UserObject) (i : Z) :
  In t l ->
  (i <= indexOf_from same_object l t i < i + Z.of_nat (length l))%Z.
Proof.
  revert i. induction l as [ | y l IH]; intros i Hin; [destruct Hin | ].
  cbn [indexOf_from length].
  destruct (same_object y t) eqn:E; [lia | ].
  destruct Hin as [-> | Hin].
  - unfold same_object in E. rewrite Nat.eqb_refl in E. discriminate E.
  - specialize (IH (i + 1)%Z Hin). lia.
Qed.

Lemma drop_one_length {A : Type} (l : list A) (n : nat) :
  n < length l -> S (length (firstn n l ++ skipn (S n) l)) = length l.
Proof.
  intros H. rewrite length_app, length_firstn, length_skipn. lia.
Qed.

Lemma drop_one_incl {A : Type} (l : list A) (n : nat) (x : A) :
  In x (firstn n l ++ skipn (S n) l) -> In x l.
Proof.
  revert n. induction l as [ | y l IH]; intros n H.
  - rewrite firstn_nil, skipn_nil in H. exact H.
  - destruct n as [ | n]; cbn [firstn skipn app] in H.
    + right. clear IH. destruct l; exact H.
    + destruct H as [H | H]; [left; exact H | right; exact (IH n H)].
Qed.

Lemma splice1_incl {A : Type} (l : list A) (start : Z) (x : A) :
  In x (splice1 l start) -> In x l.
Proof. unfold splice1. apply drop_one_incl. Qed.

Lemma splice1_length {A : Type} (l : list A) (start : Z) :
  (0 <= start < Z.of_nat (length l))%Z ->
  S (length (splice1 l start)) = length l.
Proof.
  intros H. unfold splice1.
  assert ((start <? 0)%Z = false) as -> by (apply Z.ltb_ge; lia).
  apply drop_one_length. lia.
Qed.

Lemma findUser_In (l : list UserObject) (e : string) (o : UserObject) :
  findUser l e = Some o -> In o l.
Proof.
  intros H. destruct (findUser_Some l e o H) as (pre & post & -> & _ & _).
  apply in_elt.
Qed.

(** X6: A call that rejects leaves the backend exactly as it was, and rejects
    with one of the three error codes and a message, without [users]. *)
Theorem call_rejected_unchanged (c : Call) (b : Backend) (r : Result) :
  fst (call c b) = reject r ->
  snd (call c b) = b /\
  In (status r) error_codes /\
  users r = None /\
  exists m, message r = Some m.
Proof.
  destruct c as [ | us al | u | u | u]; cbn [call].
  - rewrite getUsers_listing. discriminate.
  - unfold inviteUsers. destruct (negb (_hasValue AccessLevel al)).
    + cbn [fst snd]. intros H; injection H as <-. cbn.
      split; [reflexivity | split; [tauto | split; [reflexivity | eauto]]].
    + destruct (inviteUsers_existing b us); cbn [fst snd]; [ | discriminate].
      intros H; injection H as <-. cbn.
      split; [reflexivity | split; [tauto | split; [reflexivity | eauto]]].
  - unfold resendInvite. destruct (_findUser b u); cbn [fst snd]; [discriminate | ].
    intros H; injection H as <-. cbn.
    split; [reflexivity | split; [tauto | split; [reflexivity | eauto]]].
  - unfold revokeAccess. destruct (_findUser b u); cbn [fst snd]; [discriminate | ].
    intros H; injection H as <-. cbn.
    split; [reflexivity | split; [tauto | split; [reflexivity | eauto]]].
  - unfold markAsActive. destruct (_findUser b u); cbn [fst snd]; [discriminate | ].
    intros H; injection H as <-. cbn.
    split; [reflexivity | split; [tauto | split; [reflexivity | eauto]]].
Qed.

Lemma call_rejected_unchanged_witness :
  let c := CallRevokeAccess "nobody@x.com" in
  let r := {| status := "userNotExists"; users := None;
              message := Some ("The specified user " ++ dquote ++ "nobody@x.com" ++ dquote
                                 ++ " does not exists.")%string |} in
  fst (call c ScalyrBackend) = reject r /\
  snd (call c ScalyrBackend) = ScalyrBackend /\
  In (status r) error_codes /\
  users r = None /\
  exists m, message r = Some m.
Proof.
  intros c r.
  assert (fst (call c ScalyrBackend) = reject r) as H by reflexivity.
  split; [exact H | ].
  exact (call_rejected_unchanged c ScalyrBackend r H).
Defined.

(** X7: A call that resolves does so with status [success] and no message;
    the [users] payload is there for [getUsers], where it is the records of
    the directory as objects created for the caller, and for no other
    call. *)
Theorem call_resolved_shape (c : Call) (b : Backend) (r : Result) :
  fst (call c b) = resolve r ->
  status r = "success" /\
  message r = None /\
  users r = match c with CallGetUsers => Some (map created (records b)) | _ => None end.
Proof.
  destruct c as [ | us al | u | u | u]; cbn [call].
  - rewrite getUsers_listing. cbn [fst]. unfold listing.
    intros H; injection H as <-. repeat split.
  - unfold inviteUsers. destruct (negb (_hasValue AccessLevel al)); [discriminate | ].
    destruct (inviteUsers_existing b us); cbn [fst]; [discriminate | ].
    intros H; injection H as <-. repeat split.
  - unfold resendInvite. destruct (_findUser b u); cbn [fst]; [ | discriminate].
    intros H; injection H as <-. repeat split.
  - unfold revokeAccess. destruct (_findUser b u); cbn [fst]; [ | discriminate].
    intros H; injection H as <-. repeat split.
  - unfold markAsActive. destruct (_findUser b u); cbn [fst]; [ | discriminate].
    intros H; injection H as <-. repeat split.
Qed.

Lemma call_resolved_shape_witness :
  let c := CallMarkAsActive "jeff@scalyr.com" in
  fst (call c ScalyrBackend) = resolve success /\
  status success = "success" /\
  message success = None /\
  users success = None.
Proof.
  intros c.
  assert (fst (call c ScalyrBackend) = resolve success) as H by reflexivity.
  split; [exact H | ].
  exact (call_resolved_shape c ScalyrBackend success H).
Defined.

(** X8: The size of the directory: [inviteUsers] adds the size of the batch
    when it resolves, [revokeAccess] takes exactly one entry out when the
    email is present (in any backend, even one holding an email twice), and
    nothing else changes the size. *)
Theorem call_directory_size (c : Call) (b : Backend) :
  let n := length (_userList b) in
  let n' := length (_userList (snd (call c b))) in
  match c with
  | CallInviteUsers us al =>
      (fst (call c b) = resolve success -> n' = n + length us) /\
      (fst (call c b) <> resolve success -> n' = n)
  | CallRevokeAccess u =>
      (In u (emails b) -> S n' = n) /\ (~ In u (emails b) -> n' = n)
  | _ => n' = n
  end.
Proof.
  destruct c as [ | us al | u | u | u]; cbn [call].
  - reflexivity.
  - unfold inviteUsers. destruct (negb (_hasValue AccessLevel al)); cbn [fst snd].
    + split; [discriminate | reflexivity].
    + destruct (inviteUsers_existing b us); cbn [fst snd].
      * split; [discriminate | reflexivity].
      * split; [intros _ | intros H; exfalso; apply H; reflexivity].
        rewrite inviteUsers_push_spec. cbn [_userList].
        rewrite length_app. f_equal.
        rewrite <- (length_map ident), fresh_objects_idents. apply length_seq.
  - unfold resendInvite. destruct (_findUser b u); reflexivity.
  - unfold revokeAccess, _findUser.
    destruct (findUser (_userList b) u) as [t | ] eqn:E; cbn [snd _userList].
    + split; [intros _ | intros H; exfalso; apply H].
      * apply splice1_length. unfold indexOf.
        pose proof (indexOf_from_in_range (_userList b) t 0 (findUser_In _ _ _ E)). lia.
      * destruct (in_dec string_dec u (emails b)) as [Hin | Hout]; [exact Hin | ].
        apply findUser_None in Hout. congruence.
    + split; [intros H | reflexivity].
      apply findUser_None in E. contradiction.
  - unfold markAsActive. destruct (_findUser b u); cbn [snd _userList]; [ | reflexivity].
    unfold set_state. apply length_map.
Qed.

Lemma call_directory_size_witness :
  let b := snd (inviteUsers ["dup@x.com"; "dup@x.com"] "full" ScalyrBackend) in
  In "dup@x.com" (emails b) /\
  length (_userList b) = 7 /\
  length (_userList (snd (call (CallRevokeAccess "dup@x.com") b))) = 6.
Proof.
  intros b.
  assert (In "dup@x.com" (emails b)) as Hin by (vm_compute; tauto).
  split; [exact Hin | split; [reflexivity | ]].
  exact (eq_add_S _ 6 (proj1 (call_directory_size (CallRevokeAccess "dup@x.com") b) Hin)).
Defined.

(** ** Invariants of the records *)

Lemma valid_record_set_state (t : UserObject) (l : list UserObject) :
  Forall valid_record (map fields l) ->
  Forall valid_record (map fields (set_state t UserState_ACTIVE l)).
Proof.
  unfold set_state. rewrite map_map, !Forall_map. apply Forall_impl.
  intros o [Hal Hst]. destruct (same_object o t); [ | split; assumption].
  split; [exact Hal | left; reflexivity].
Qed.

Lemma valid_record_fresh (n : nat) (al : string) (us : list string) :
  In al AccessLevel -> Forall valid_record (map fields (fresh_objects n al us)).
Proof.
  intros Hal. rewrite fresh_objects_fields, Forall_map.
  apply Forall_forall. intros u _. split; [exact Hal | right; reflexivity].
Qed.

Lemma valid_record_call (c : Call) (b : Backend) :
  Forall valid_record (records b) ->
  Forall valid_record (records (snd (call c b))).
Proof.
  intros H. destruct c as [ | us al | u | u | u]; cbn [call].
  - exact H.
  - unfold inviteUsers. destruct (_hasValue AccessLevel al) eqn:Eal; cbn [negb]; [ | exact H].
    destruct (inviteUsers_existing b us); [exact H | ]. cbn [snd].
    rewrite inviteUsers_push_spec. unfold records in *. cbn [_userList].
    rewrite map_app. apply Forall_app. split; [exact H | ].
    apply valid_record_fresh. apply _hasValue_AccessLevel. exact Eal.
  - unfold resendInvite. destruct (_findUser b u); exact H.
  - unfold revokeAccess. destruct (_findUser b u) as [t | ]; [ | exact H].
    unfold records in *. cbn [snd _userList]. rewrite Forall_map in *.
    rewrite Forall_forall in *. intros o Ho. apply H.
    exact (splice1_incl _ _ _ Ho).
  - unfold markAsActive. destruct (_findUser b u) as [t | ]; [ | exact H].
    unfold records in *. cbn [snd _userList]. apply valid_record_set_state. exact H.
Qed.

(** X9: Every method keeps the records valid: if every record of the
    directory has one of the three access levels and one of the two states,
    so has every record after any sequence of calls, whatever the
    arguments.  The seed directory is such a directory. *)
Theorem run_keeps_records_valid (cs : list Call) (b : Backend) :
  Forall valid_record (records b) ->
  Forall valid_record (records (run cs b)).
Proof.
  revert b. induction cs as [ | c cs IH]; intros b H; cbn [run]; [exact H | ].
  apply IH, valid_record_call, H.
Qed.

Lemma run_keeps_records_valid_witness :
  let cs := [CallInviteUsers ["new@x.com"] "limited";
             CallInviteUsers ["bad@x.com"] "owner";
             CallMarkAsActive "new@x.com";
             CallRevokeAccess "asma@scalyr.com"] in
  Forall valid_record (records ScalyrBackend) /\
  Forall valid_record (records (run cs ScalyrBackend)).
Proof.
  intros cs.
  assert (Forall valid_record (records ScalyrBackend)) as H.
  { repeat constructor; cbn; tauto. }
  split; [exact H | ].
  exact (run_keeps_records_valid cs ScalyrBackend H).
Defined.

Lemma run_tracks_fields (cs : list Call) (b : Backend) (o o' : UserObject) :
  well_formed b ->
  In o (_userList b) ->
  In o' (_userList (run cs b)) ->
  ident o' = ident o ->
  email (fields o') = email (fields o) /\
  accessLevel (fields o') = accessLevel (fields o).
Proof.
  revert b o. induction cs as [ | c cs IH]; intros b o Hwf Ho Ho' E; cbn [run] in Ho'.
  - rewrite (same_ident_same_object _ o o' (well_formed_distinct b Hwf) Ho Ho' E).
    split; reflexivity.
  - assert (ident o < allocated b) as Hlt.
    { destruct Hwf as [_ Hb]. rewrite Forall_forall in Hb.
      apply Hb. unfold idents. apply in_map. exact Ho. }
    assert (In (ident o) (idents (snd (call c b)))) as Hmid.
    { apply (run_idents cs); [apply well_formed_call; exact Hwf | | ].
      - rewrite <- E. unfold idents. apply in_map. exact Ho'.
      - pose proof (call_allocated c b). lia. }
    unfold idents in Hmid. apply in_map_iff in Hmid as (o1 & E1 & Ho1).
    destruct (IH (snd (call c b)) o1 (well_formed_call c b Hwf) Ho1 Ho'
                 ltac:(congruence)) as [He Ha].
    rewrite He, Ha.
    destruct (call_tracks c b o o1 Hwf Ho Ho1 E1) as [-> | [_ ->]];
      split; reflexivity.
Qed.

(** X10: No method changes the email or the access level of a record: in a
    directory reached from the seed, a record keeps both through any calls
    that follow, for as long as it is in the directory. *)
Theorem record_email_and_level_fixed (cs : list Call) (b : Backend) (o o' : UserObject) :
  reachable b ->
  In o (_userList b) ->
  In o' (_userList (run cs b)) ->
  ident o' = ident o ->
  email (fields o') = email (fields o) /\
  accessLevel (fields o') = accessLevel (fields o).
Proof.
  intros Hr. apply run_tracks_fields. apply reachable_well_formed. exact Hr.
Qed.

Lemma record_email_and_level_fixed_witness :
  let steve := {| ident := 4; fields := mkUserRecord "steve@scalyr.com" "limited" "invited" |} in
  let cs := [CallMarkAsActive "steve@scalyr.com";
             CallRevokeAccess "jeff@scalyr.com";
             CallInviteUsers ["jeff@scalyr.com"] "read-only"] in
  reachable ScalyrBackend /\
  In steve (_userList ScalyrBackend) /\
  In (activated steve) (_userList (run cs ScalyrBackend)) /\
  ident (activated steve) = ident steve /\
  email (fields (activated steve)) = email (fields steve) /\
  accessLevel (fields (activated steve)) = accessLevel (fields steve).
Proof.
  intros steve cs.
  assert (reachable ScalyrBackend) as Hr by (exists []; reflexivity).
  assert (In steve (_userList ScalyrBackend)) as Ho by (vm_compute; tauto).
  assert (In (activated steve) (_userList (run cs ScalyrBackend))) as Ho'
    by (vm_compute; tauto).
  split; [exact Hr | split; [exact Ho | split; [exact Ho' | split; [reflexivity | ]]]].
  exact (record_email_and_level_fixed cs ScalyrBackend steve (activated steve)
           Hr Ho Ho' eq_refl).
Defined.

(** X11: From the seed, every sequence of calls in which no [inviteUsers] batch
    names an email twice keeps the emails of the directory pairwise
    different. *)
Theorem seed_emails_stay_unique (cs : list Call) :
  batches_without_repeats cs ->
  NoDup (emails (run cs ScalyrBackend)).
Proof.
  intros H. apply unique_emails_run; [apply well_formed_seed | apply unique_emails_seed | exact H].
Qed.

Lemma seed_emails_stay_unique_witness :
  let cs := [CallInviteUsers ["a@x.com"; "b@x.com"] "full";
             CallRevokeAccess "a@x.com";
             CallInviteUsers ["a@x.com"] "limited"] in
  batches_without_repeats cs /\
  NoDup (emails (run cs ScalyrBackend)).
Proof.
  intros cs.
  assert (batches_without_repeats cs) as H.
  { repeat constructor; intros us al E; try discriminate E; injection E as <- _.
    - repeat (constructor;
              [intros H; repeat (destruct H as [H | H]; [discriminate H | ]); exact H | ]).
      constructor.
    - repeat (constructor;
              [intros H; repeat (destruct H as [H | H]; [discriminate H | ]); exact H | ]).
      constructor. }
  split; [exact H | ].
  exact (seed_emails_stay_unique cs H).
Defined.

(** ** [markAsActive] on a present email *)

Lemma set_state_other (t : UserObject) (st : string) (l : list UserObject) :
  ~ In (ident t) (map ident l) -> set_state t st l = l.
Proof.
  induction l as [ | y l IH]; intros H; [reflexivity | ].
  unfold set_state in *. cbn [map] in *.
  assert (same_object y t = false) as ->.
  { unfold same_object. apply Nat.eqb_neq. intros E. apply H. left. exact E. }
  f_equal. apply IH. intros Hin. apply H. right. exact Hin.
Qed.

Lemma set_state_at (pre post : list UserObject) (t : UserObject) :
  NoDup (map ident (pre ++ t :: post)) ->
  set_state t UserState_ACTIVE (pre ++ t :: post) = pre ++ activated t :: post.
Proof.
  intros Hnd. rewrite map_app in Hnd. cbn [map] in Hnd.
  pose proof (NoDup_remove_2 _ _ _ Hnd) as Hout.
  assert (set_state t UserState_ACTIVE (pre ++ t :: post) =
          set_state t UserState_ACTIVE pre
            ++ set_state t UserState_ACTIVE [t]
            ++ set_state t UserState_ACTIVE post) as ->
    by (unfold set_state; rewrite map_app; reflexivity).
  rewrite (set_state_other t _ pre) by (intros H; apply Hout, in_or_app; left; exact H).
  rewrite (set_state_other t _ post) by (intros H; apply Hout, in_or_app; right; exact H).
  unfold set_state, same_object. cbn [map app]. rewrite Nat.eqb_refl. reflexivity.
Qed.

(** X12: In a directory of distinct objects, [markAsActive] on an email that
    some record has resolves with success and sets the state of the first
    record with that email to [active]; its email and access level, every
    other record, the order and the size of the directory stay as they
    were. *)
Theorem markAsActive_activates_first (b : Backend) (u : string) :
  distinct_objects b ->
  In u (emails b) ->
  exists pre o post,
    _userList b = pre ++ o :: post /\
    email (fields o) = u /\
    ~ In u (map (fun x => email (fields x)) pre) /\
    markAsActive u b =
    (resolve success,
     {| _userList := pre ++ activated o :: post; allocated := allocated b |}).
Proof.
  intros Hnd Hin.
  destruct (findUser_present (_userList b) u Hin) as [o Ho].
  destruct (findUser_Some _ _ _ Ho) as (pre & post & Hl & He & Hpre).
  exists pre, o, post. repeat split; try assumption.
  unfold markAsActive, _findUser. rewrite Ho.
  unfold distinct_objects, idents in Hnd. rewrite Hl in *.
  now rewrite set_state_at by exact Hnd.
Qed.

Lemma markAsActive_activates_first_witness :
  distinct_objects ScalyrBackend /\
  In "steve@scalyr.com" (emails ScalyrBackend) /\
  exists pre o post,
    _userList ScalyrBackend = pre ++ o :: post /\
    email (fields o) = "steve@scalyr.com" /\
    ~ In "steve@scalyr.com" (map (fun x => email (fields x)) pre) /\
    markAsActive "steve@scalyr.com" ScalyrBackend =
    (resolve success,
     {| _userList := pre ++ activated o :: post; allocated := allocated ScalyrBackend |}).
Proof.
  assert (distinct_objects ScalyrBackend) as Hnd.
  { vm_compute. repeat (constructor; [simpl; lia | ]). constructor. }
  assert (In "steve@scalyr.com" (emails ScalyrBackend)) as Hin by (vm_compute; tauto).
  split; [exact Hnd | split; [exact Hin | ]].
  exact (markAsActive_activates_first ScalyrBackend "steve@scalyr.com" Hnd Hin).
Defined.

Lemma findUser_set_state (t : UserObject) (st : string) (l : list UserObject) (e : string) :
  findUser (set_state t st l) e =
  option_map (fun o =>
                if same_object o t
                then {| ident := ident o;
                        fields := {| email := email (fields o);
                                     accessLevel := accessLevel (fields o);
                                     state := st |} |}
                else o) (findUser l e).
Proof.
  induction l as [ | y l IH]; [reflexivity | ].
  unfold set_state in *. cbn [map findUser].
  assert (email (fields (if same_object y t
                         then {| ident := ident y;
                                 fields := {| email := email (fields y);
                                              accessLevel := accessLevel (fields y);
                                              state := st |} |}
                         else y)) = email (fields y)) as ->
    by (destruct (same_object y t); reflexivity).
  destruct (String.eqb (email (fields y)) e); [reflexivity | exact IH].
Qed.

Lemma set_state_twice (t t' : UserObject) (st : string) (l : list UserObject) :
  ident t' = ident t ->
  set_state t' st (set_state t st l) = set_state t st l.
Proof.
  intros E. unfold set_state. rewrite map_map. apply map_ext. intros o.
  unfold same_object. rewrite E.
  destruct (Nat.eqb (ident o) (ident t)) eqn:Eo; cbn [ident]; rewrite Eo; reflexivity.
Qed.

(** X13: [markAsActive] is idempotent, in any backend and for any email: a
    second call right after the first settles the same way and leaves the
    backend the first call left. *)
Theorem markAsActive_idempotent (u : string) (b : Backend) :
  markAsActive u (snd (markAsActive u b)) = markAsActive u b.
Proof.
  unfold markAsActive at 2 3. unfold _findUser.
  destruct (findUser (_userList b) u) as [t | ] eqn:E; cbn [snd].
  - unfold markAsActive, _findUser. cbn [_userList allocated].
    rewrite findUser_set_state, E. cbn [option_map].
    rewrite set_state_twice; [reflexivity | ].
    destruct (same_object t t); reflexivity.
  - unfold markAsActive, _findUser. rewrite E. reflexivity.
Qed.

(** ** [revokeAccess] and [inviteUsers] together *)

Lemma coherent_unique_emails_first (b : Backend) (pre post : list UserObject) (o : UserObject) :
  NoDup (emails b) ->
  _userList b = pre ++ o :: post ->
  ~ In (email (fields o)) (emails {| _userList := pre ++ post; allocated := allocated b |}).
Proof.
  unfold emails. cbn [_userList]. intros Hnd Hl. rewrite Hl in Hnd.
  rewrite map_app in *. cbn [map] in Hnd. exact (NoDup_remove_2 _ _ _ Hnd).
Qed.

(** X14: Where emails are pairwise different, [revokeAccess] on a present email
    makes the email absent: every other email stays, and a second
    [revokeAccess] (or a [resendInvite]) on it rejects with
    [userNotExists]. *)
Theorem revokeAccess_then_absent (b : Backend) (u : string) :
  coherent b ->
  NoDup (emails b) ->
  In u (emails b) ->
  let b' := snd (revokeAccess u b) in
  ~ In u (emails b') /\
  (forall v, v <> u -> (In v (emails b') <-> In v (emails b))) /\
  revokeAccess u b' = (userNotExists u, b') /\
  resendInvite u b' = (userNotExists u, b').
Proof.
  intros Hco Hnd Hin.
  destruct (findUser_present (_userList b) u Hin) as [o Ho].
  destruct (findUser_Some _ _ _ Ho) as (pre & post & Hl & He & Hpre).
  rewrite (revokeAccess_found u b pre post o Hco Hl He Hpre Ho). cbn [snd].
  pose proof (coherent_unique_emails_first b pre post o Hnd Hl) as Hout.
  rewrite He in Hout.
  split; [exact Hout | split].
  - intros v Hv. unfold emails. cbn [_userList]. rewrite Hl, !map_app. cbn [map].
    rewrite !in_app_iff. cbn [In]. rewrite He. intuition congruence.
  - unfold revokeAccess, resendInvite.
    rewrite (_findUser_absent _ u Hout). split; reflexivity.
Qed.

Lemma revokeAccess_then_absent_witness :
  let u := "claudia@scalyr.com" in
  coherent ScalyrBackend /\
  NoDup (emails ScalyrBackend) /\
  In u (emails ScalyrBackend) /\
  let b' := snd (revokeAccess u ScalyrBackend) in
  ~ In u (emails b') /\
  (forall v, v <> u -> (In v (emails b') <-> In v (emails ScalyrBackend))) /\
  revokeAccess u b' = (userNotExists u, b') /\
  resendInvite u b' = (userNotExists u, b').
Proof.
  intros u.
  assert (coherent ScalyrBackend) as Hco
    by (apply well_formed_coherent, well_formed_seed).
  assert (In u (emails ScalyrBackend)) as Hin by (vm_compute; tauto).
  split; [exact Hco | split; [exact unique_emails_seed | split; [exact Hin | ]]].
  exact (revokeAccess_then_absent ScalyrBackend u Hco unique_emails_seed Hin).
Defined.

(** X15: Inviting one absent email and revoking it right away gives the
    directory back: both calls resolve with success and the list of user
    objects is the one before the two calls. *)
Theorem invite_then_revoke_restores (b : Backend) (u al : string) :
  well_formed b ->
  In al AccessLevel ->
  ~ In u (emails b) ->
  let (p1, b1) := inviteUsers [u] al b in
  let (p2, b2) := revokeAccess u b1 in
  p1 = resolve success /\ p2 = resolve success /\
  _userList b2 = _userList b /\ records b2 = records b.
Proof.
  intros Hwf Hal Hout.
  pose proof (well_formed_inviteUsers [u] al b Hwf) as Hwf1.
  rewrite (inviteUsers_valid [u] al b Hal) in *.
  rewrite (proj2 (inviteUsers_existing_None b [u])) in *
    by (intros v [<- | []]; exact Hout).
  cbn [snd] in Hwf1. rewrite inviteUsers_push_spec in *.
  cbn [fresh_objects] in *.
  set (o := {| ident := allocated b; fields := invited al u |}) in *.
  set (b1 := {| _userList := _userList b ++ [o]; allocated := allocated b + length [u] |}) in *.
  rewrite (revokeAccess_found u b1 (_userList b) [] o
             (well_formed_coherent b1 Hwf1) eq_refl eq_refl Hout).
  - cbn [_userList]. rewrite app_nil_r. unfold records. cbn [_userList].
    repeat split.
  - exact (findUser_first (_userList b) [] o Hout).
Qed.

Lemma invite_then_revoke_restores_witness :
  well_formed ScalyrBackend /\
  In "full" AccessLevel /\
  ~ In "new@x.com" (emails ScalyrBackend) /\
  let (p1, b1) := inviteUsers ["new@x.com"] "full" ScalyrBackend in
  let (p2, b2) := revokeAccess "new@x.com" b1 in
  p1 = resolve success /\ p2 = resolve success /\
  _userList b2 = _userList ScalyrBackend /\ records b2 = records ScalyrBackend.
Proof.
  assert (In "full" AccessLevel) as Hal by (vm_compute; tauto).
  assert (~ In "new@x.com" (emails ScalyrBackend)) as Hout.
  { vm_compute. intros H; repeat (destruct H as [H | H]; [discriminate H | ]); exact H. }
  split; [exact well_formed_seed | split; [exact Hal | split; [exact Hout | ]]].
  exact (invite_then_revoke_restores ScalyrBackend "new@x.com" "full"
           well_formed_seed Hal Hout).
Defined.

(** X16: Where emails are pairwise different, an email that was revoked can be
    invited again: both calls resolve with success, and the directory then
    holds the other objects in their order followed by a new object for the
    email, in state [invited] with the access level of the new invitation,
    whatever the state and access level of the revoked record were. *)
Theorem revoke_then_invite_again (b : Backend) (u al : string) :
  coherent b ->
  NoDup (emails b) ->
  In u (emails b) ->
  In al AccessLevel ->
  exists pre o post,
    _userList b = pre ++ o :: post /\
    email (fields o) = u /\
    let (p1, b1) := revokeAccess u b in
    let (p2, b2) := inviteUsers [u] al b1 in
    p1 = resolve success /\ p2 = resolve success /\
    _userList b2 =
      (pre ++ post) ++ [ {| ident := allocated b; fields := invited al u |} ].
Proof.
  intros Hco Hnd Hin Hal.
  destruct (findUser_present (_userList b) u Hin) as [o Ho].
  destruct (findUser_Some _ _ _ Ho) as (pre & post & Hl & He & Hpre).
  exists pre, o, post. split; [exact Hl | split; [exact He | ]].
  rewrite (revokeAccess_found u b pre post o Hco Hl He Hpre Ho).
  pose proof (coherent_unique_emails_first b pre post o Hnd Hl) as Hout.
  rewrite He in Hout.
  rewrite (inviteUsers_valid [u] al _ Hal).
  rewrite (proj2 (inviteUsers_existing_None _ [u]))
    by (intros v [<- | []]; exact Hout).
  repeat split.
Qed.

Lemma revoke_then_invite_again_witness :
  let u := "czerwin@scalyr.com" in
  coherent ScalyrBackend /\
  NoDup (emails ScalyrBackend) /\
  In u (emails ScalyrBackend) /\
  In "read-only" AccessLevel /\
  exists pre o post,
    _userList ScalyrBackend = pre ++ o :: post /\
    email (fields o) = u /\
    let (p1, b1) := revokeAccess u ScalyrBackend in
    let (p2, b2) := inviteUsers [u] "read-only" b1 in
    p1 = resolve success /\ p2 = resolve success /\
    _userList b2 =
      (pre ++ post)
        ++ [ {| ident := allocated ScalyrBackend; fields := invited "read-only" u |} ].
Proof.
  intros u.
  assert (coherent ScalyrBackend) as Hco
    by (apply well_formed_coherent, well_formed_seed).
  assert (In u (emails ScalyrBackend)) as Hin by (vm_compute; tauto).
  assert (In "read-only" AccessLevel) as Hal by (vm_compute; tauto).
  split; [exact Hco | split; [exact unique_emails_seed | split; [exact Hin | split;
    [exact Hal | ]]]].
  exact (revoke_then_invite_again ScalyrBackend u "read-only"
           Hco unique_emails_seed Hin Hal).
Defined.

(** X17: A batch that was invited cannot be invited again: after a successful
    [inviteUsers] of a non-empty batch, inviting the same batch with any
    valid access level rejects with [userExists], naming the first email of
    the batch, and changes nothing. *)
Theorem inviteUsers_again_rejected (b : Backend) (u : string) (rest : list string)
        (al al' : string) :
  In al AccessLevel ->
  In al' AccessLevel ->
  (forall v, In v (u :: rest) -> ~ In v (emails b)) ->
  let (p1, b1) := inviteUsers (u :: rest) al b in
  p1 = resolve success /\
  inviteUsers (u :: rest) al' b1 =
  (failure "userExists"
     ("The specified user " ++ dquote ++ u ++ dquote ++ " already exists.")%string, b1).
Proof.
  intros Hal Hal' Habs.
  rewrite (inviteUsers_valid (u :: rest) al b Hal).
  rewrite (proj2 (inviteUsers_existing_None b (u :: rest)) Habs).
  split; [reflexivity | ].
  rewrite (inviteUsers_valid (u :: rest) al' _ Hal').
  rewrite (inviteUsers_existing_first _ [] rest u); [reflexivity | intros v [] | ].
  rewrite inviteUsers_push_emails. apply in_or_app. right. left. reflexivity.
Qed.

Lemma inviteUsers_again_rejected_witness :
  In "full" AccessLevel /\
  In "limited" AccessLevel /\
  (forall v, In v ["a@x.com"; "b@x.com"] -> ~ In v (emails ScalyrBackend)) /\
  let (p1, b1) := inviteUsers ["a@x.com"; "b@x.com"] "full" ScalyrBackend in
  p1 = resolve success /\
  inviteUsers ["a@x.com"; "b@x.com"] "limited" b1 =
  (failure "userExists"
     ("The specified user " ++ dquote ++ "a@x.com" ++ dquote ++ " already exists.")%string,
   b1).
Proof.
  assert (In "full" AccessLevel) as Hal by (vm_compute; tauto).
  assert (In "limited" AccessLevel) as Hal' by (vm_compute; tauto).
  assert (forall v, In v ["a@x.com"; "b@x.com"] -> ~ In v (emails ScalyrBackend)) as Habs.
  { intros v [<- | [<- | []]]; vm_compute;
      intros H; repeat (destruct H as [H | H]; [discriminate H | ]); exact H. }
  split; [exact Hal | split; [exact Hal' | split; [exact Habs | ]]].
  exact (inviteUsers_again_rejected ScalyrBackend "a@x.com" ["b@x.com"] "full" "limited"
           Hal Hal' Habs).
Defined.

(** ** Calls on different emails commute *)

Lemma remove_first_absent (e : string) (l : list UserObject) :
  ~ In e (map (fun o => email (fields o)) l) -> remove_first e l = l.
Proof.
  induction l as [ | o l IH]; intros H; cbn [remove_first]; [reflexivity | ].
  cbn [map] in H. destruct (String.eqb_spec (email (fields o)) e) as [E | N].
  - exfalso. apply H. left. exact E.
  - f_equal. apply IH. intros Hin. apply H. right. exact Hin.
Qed.

Lemma remove_first_at (pre post : list UserObject) (o : UserObject) :
  ~ In (email (fields o)) (map (fun x => email (fields x)) pre) ->
  remove_first (email (fields o)) (pre ++ o :: post) = pre ++ post.
Proof.
  induction pre as [ | y pre IH]; intros H; cbn [app remove_first].
  - now rewrite String.eqb_refl.
  - cbn [map] in H. destruct (String.eqb_spec (email (fields y)) (email (fields o))) as [E | N].
    + exfalso. apply H. left. exact E.
    + f_equal. apply IH. intros Hin. apply H. right. exact Hin.
Qed.

Lemma activate_first_absent (e : string) (l : list UserObject) :
  ~ In e (map (fun o => email (fields o)) l) -> activate_first e l = l.
Proof.
  induction l as [ | o l IH]; intros H; cbn [activate_first]; [reflexivity | ].
  cbn [map] in H. destruct (String.eqb_spec (email (fields o)) e) as [E | N].
  - exfalso. apply H. left. exact E.
  - f_equal. apply IH. intros Hin. apply H. right. exact Hin.
Qed.

Lemma activate_first_at (pre post : list UserObject) (o : UserObject) :
  ~ In (email (fields o)) (map (fun x => email (fields x)) pre) ->
  activate_first (email (fields o)) (pre ++ o :: post) = pre ++ activated o :: post.
Proof.
  induction pre as [ | y pre IH]; intros H; cbn [app activate_first].
  - now rewrite String.eqb_refl.
  - cbn [map] in H. destruct (String.eqb_spec (email (fields y)) (email (fields o))) as [E | N].
    + exfalso. apply H. left. exact E.
    + f_equal. apply IH. intros Hin. apply H. right. exact Hin.
Qed.

(** The search by identity of [revokeAccess] removes the first record by
    email. *)
Lemma revokeAccess_remove_first (u : string) (b : Backend) :
  coherent b ->
  snd (revokeAccess u b) =
  {| _userList := remove_first u (_userList b); allocated := allocated b |}.
Proof.
  intros Hco. destruct (findUser (_userList b) u) as [o | ] eqn:E.
  - destruct (findUser_Some _ _ _ E) as (pre & post & Hl & He & Hpre).
    rewrite (revokeAccess_found u b pre post o Hco Hl He Hpre E). cbn [snd].
    rewrite Hl. subst u. now rewrite remove_first_at.
  - unfold revokeAccess, _findUser. rewrite E. cbn [snd].
    apply findUser_None in E. rewrite remove_first_absent by exact E.
    destruct b; reflexivity.
Qed.

Lemma markAsActive_activate_first (u : string) (b : Backend) :
  distinct_objects b ->
  snd (markAsActive u b) =
  {| _userList := activate_first u (_userList b); allocated := allocated b |}.
Proof.
  intros Hnd. unfold markAsActive, _findUser.
  destruct (findUser (_userList b) u) as [o | ] eqn:E; cbn [snd].
  - destruct (findUser_Some _ _ _ E) as (pre & post & Hl & He & Hpre).
    unfold distinct_objects, idents in Hnd. rewrite Hl in *.
    rewrite set_state_at by exact Hnd. subst u. now rewrite activate_first_at.
  - apply findUser_None in E. rewrite activate_first_absent by exact E.
    destruct b; reflexivity.
Qed.

Lemma remove_first_comm (u v : string) (l : list UserObject) :
  remove_first u (remove_first v l) = remove_first v (remove_first u l).
Proof.
  induction l as [ | o l IH]; [reflexivity | ]. cbn [remove_first].
  destruct (String.eqb_spec (email (fields o)) v) as [Ev | Nv];
    destruct (String.eqb_spec (email (fields o)) u) as [Eu | Nu]; cbn [remove_first].
  - congruence.
  - apply String.eqb_eq in Ev. now rewrite Ev.
  - apply String.eqb_eq in Eu. now rewrite Eu.
  - apply String.eqb_neq in Nv, Nu. rewrite Nv, Nu. f_equal. exact IH.
Qed.

Lemma activate_first_comm (u v : string) (l : list UserObject) :
  u <> v ->
  activate_first u (activate_first v l) = activate_first v (activate_first u l).
Proof.
  intros Huv. induction l as [ | o l IH]; [reflexivity | ]. cbn [activate_first].
  destruct (String.eqb_spec (email (fields o)) v) as [Ev | Nv];
    destruct (String.eqb_spec (email (fields o)) u) as [Eu | Nu];
    cbn [activate_first activated fields email].
  - congruence.
  - apply String.eqb_eq in Ev. apply String.eqb_neq in Nu. now rewrite Nu, Ev.
  - apply String.eqb_eq in Eu. apply String.eqb_neq in Nv. now rewrite Nv, Eu.
  - apply String.eqb_neq in Nv, Nu. rewrite Nv, Nu. f_equal. exact IH.
Qed.

Lemma remove_activate_comm (u v : string) (l : list UserObject) :
  u <> v ->
  remove_first v (activate_first u l) = activate_first u (remove_first v l).
Proof.
  intros Huv. induction l as [ | o l IH]; [reflexivity | ].
  cbn [activate_first remove_first].
  destruct (String.eqb_spec (email (fields o)) v) as [Ev | Nv];
    destruct (String.eqb_spec (email (fields o)) u) as [Eu | Nu];
    cbn [activate_first remove_first activated fields email].
  - congruence.
  - apply String.eqb_eq in Ev. now rewrite Ev.
  - apply String.eqb_eq in Eu. apply String.eqb_neq in Nv. now rewrite Nv, Eu.
  - apply String.eqb_neq in Nv, Nu. rewrite Nv, Nu. f_equal. exact IH.
Qed.

(** X18: In a directory reached from the seed, two calls among [revokeAccess]
    and [markAsActive] on different emails can be made in either order:
    the backend after both is the same. *)
Theorem calls_on_different_emails_commute (b : Backend) (u v : string) :
  reachable b ->
  u <> v ->
  run [CallRevokeAccess u; CallRevokeAccess v] b =
    run [CallRevokeAccess v; CallRevokeAccess u] b /\
  run [CallMarkAsActive u; CallMarkAsActive v] b =
    run [CallMarkAsActive v; CallMarkAsActive u] b /\
  run [CallMarkAsActive u; CallRevokeAccess v] b =
    run [CallRevokeAccess v; CallMarkAsActive u] b.
Proof.
  intros Hr Huv. pose proof (reachable_well_formed b Hr) as Hwf.
  pose proof (well_formed_call (CallRevokeAccess u) b Hwf) as Hru.
  pose proof (well_formed_call (CallRevokeAccess v) b Hwf) as Hrv.
  pose proof (well_formed_call (CallMarkAsActive u) b Hwf) as Hmu.
  pose proof (well_formed_call (CallMarkAsActive v) b Hwf) as Hmv.
  cbn [run call] in *.
  rewrite !revokeAccess_remove_first by (apply well_formed_coherent; assumption).
  rewrite !markAsActive_activate_first by (apply well_formed_distinct; assumption).
  rewrite !revokeAccess_remove_first in *
    by (apply well_formed_coherent; assumption).
  rewrite !markAsActive_activate_first in *
    by (apply well_formed_distinct; assumption).
  cbn [_userList allocated].
  rewrite (remove_first_comm u v), (activate_first_comm u v _ Huv),
    (remove_activate_comm u v _ Huv).
  repeat split.
Qed.

Lemma calls_on_different_emails_commute_witness :
  let u := "jeff@scalyr.com" in
  let v := "steve@scalyr.com" in
  reachable ScalyrBackend /\
  u <> v /\
  run [CallRevokeAccess u; CallRevokeAccess v] ScalyrBackend =
    run [CallRevokeAccess v; CallRevokeAccess u] ScalyrBackend /\
  run [CallMarkAsActive u; CallMarkAsActive v] ScalyrBackend =
    run [CallMarkAsActive v; CallMarkAsActive u] ScalyrBackend /\
  run [CallMarkAsActive u; CallRevokeAccess v] ScalyrBackend =
    run [CallRevokeAccess v; CallMarkAsActive u] ScalyrBackend.
Proof.
  intros u v.
  assert (reachable ScalyrBackend) as Hr by (exists []; reflexivity).
  assert (u <> v) as Huv by discriminate.
  split; [exact Hr | split; [exact Huv | ]].
  exact (calls_on_different_emails_commute ScalyrBackend u v Hr Huv).
Defined.
